(** * Accessibility-snapshot diffing and baseline management

    A shallow embedding of [src/utils/accessibilityDiff.ts] and of the
    [take_change_snapshot] handler of [src/tools/snapshot.ts].

    Conventions of the embedding.
    - A JavaScript value is a [JsValue].  A plain object is the list of its
      own enumerable string-keyed properties in the order [Object.entries]
      yields them; its prototype is [Object.prototype], as the standard has
      it.  A read [o[key]] ([obj_get]) finds the own property or else the
      member [Object.prototype] has under that name.  Two uses of the prototype are not represented, and the
      statements that depend on them say so in a hypothesis: the
      assignment [data[key] = ...] for the key [__proto__], which sets the
      prototype and creates no property (hypothesis: no raw node has an own
      property of that name), and the reads [baseline.nodes[id]] and
      [current.nodes[id]] for an id that names a member of
      [Object.prototype] (hypothesis [own_ids]; it holds of every snapshot
      [normalizeSnapshot] builds).  No object carries a [toJSON] method
      that [JSON.stringify] would call.  BigInt values, on which
      [JSON.stringify] throws, and cyclic objects, on which the recursion
      of [sanitizeValue] does not end, are not represented either.
    - The built-ins whose results depend on the host (number formatting,
      JSON string quoting, locale collation, trimming) are the fields of the
      class [Engine]; every definition and theorem of the development is
      parametric in it.
    - The clock read by [new Date().toISOString()] is an explicit argument.
    - The handler threads the response lines and the baseline store through
      its result; what [captureAccessibilitySnapshot] resolved to is an
      argument. *)

From Stdlib Require Import String Ascii List ZArith DecimalString DecimalNat DecimalN.
From Stdlib Require Import OrderedTypeEx.
From stdpp Require Import base option list strings gmap sorting.

Local Open Scope string_scope.
Local Open Scope list_scope.

(** ** The host's built-ins *)

Class Engine := {
  (** the values of type [number] (IEEE doubles in a real host) *)
  number : Type;
  (** [Number::toString], which [String(n)], [n.toString()] and template
      literals all use *)
  Number_toString : number → string;
  (** [JSON.stringify] renders a number that is not finite as [null] *)
  Number_isFinite : number → bool;
  (** [QuoteJSONString]: a string as a JSON string literal *)
  QuoteJSONString : string → string;
  (** the sign of [a.localeCompare(b)] *)
  localeCompare : string → string → comparison;
  (** [String.prototype.trim] *)
  String_trim : string → string;
}.

(** The double-quote character, which the response templates contain. *)
Definition dquote : string := String (ascii_of_nat 34) EmptyString.

(** [String(index)] for an array index, and [`${list.length}`]. *)
Definition String_nat (n : nat) : string :=
  NilZero.string_of_uint (Nat.to_uint n).

(** [segments.join(sep)] *)
Definition join (sep : string) (segments : list string) : string :=
  String.concat sep segments.

(** ** Own-property order of plain objects

    [OrdinaryOwnPropertyKeys] lists the array-index keys first, in
    ascending numeric order, and then the other string keys in the order
    they were created. *)

(** The array index a property key denotes: a canonical numeric string
    below [2^32 - 1]. *)
Definition array_index (key : string) : option N :=
  match NilZero.uint_of_string key with
  | Some d =>
      let n := N.of_uint d in
      if String.eqb (NilZero.string_of_uint (N.to_uint n)) key
         && (n <? 4294967295)%N
      then Some n else None
  | None => None
  end.

Section Objects.
Context {V : Type}.

(** [key in o] and [o[key]] on own properties *)
Fixpoint obj_lookup (o : list (string * V)) (key : string) : option V :=
  match o with
  | [] => None
  | (k, v) :: rest => if String.eqb k key then Some v else obj_lookup rest key
  end.

(** [Object.keys(o)] *)
Definition obj_keys (o : list (string * V)) : list string := o.*1.

(** Writing an existing property keeps its place. *)
Fixpoint obj_replace (o : list (string * V)) (key : string) (value : V)
  : list (string * V) :=
  match o with
  | [] => []
  | (k, v) :: rest =>
      if String.eqb k key then (key, value) :: rest
      else (k, v) :: obj_replace rest key value
  end.

(** A new array-index key goes after the smaller array-index keys and
    before everything else. *)
Fixpoint obj_insert_index (o : list (string * V)) (i : N) (key : string)
  (value : V) : list (string * V) :=
  match o with
  | [] => [(key, value)]
  | (k, v) :: rest =>
      match array_index k with
      | Some j =>
          if (j <? i)%N then (k, v) :: obj_insert_index rest i key value
          else (key, value) :: o
      | None => (key, value) :: o
      end
  end.

(** The definition of the own property [key] of a plain object: what
    [Object.fromEntries] does for an entry, and what the assignment
    [o[key] = value] does for a key other than [__proto__]. *)
Definition obj_set (o : list (string * V)) (key : string) (value : V)
  : list (string * V) :=
  match obj_lookup o key with
  | Some _ => obj_replace o key value
  | None =>
      match array_index key with
      | Some i => obj_insert_index o i key value
      | None => o ++ [(key, value)]
      end
  end.

(** [Object.fromEntries(entries)] *)
Definition Object_fromEntries (entries : list (string * V))
  : list (string * V) :=
  foldl (λ o kv, obj_set o kv.1 kv.2) [] entries.

End Objects.

(** [items.forEach((item, index) => ...)], the state the callback updates
    threaded through; [index] is the index of the first item. *)
Definition forEach {A St} (callback : A → nat → St → St)
  : list A → nat → St → St :=
  fix each items index state :=
    match items with
    | [] => state
    | item :: rest => each rest (S index) (callback item index state)
    end.

(** The lists a callback yields for the items, one after the other. *)
Definition concat_indexed {A B} (callback : A → nat → list B)
  : list A → nat → list B :=
  fix each items index :=
    match items with
    | [] => []
    | item :: rest => callback item index ++ each rest (S index)
    end.

(** A path segment is a non-empty string without a dot. *)
Fixpoint no_dot (s : string) : bool :=
  match s with
  | EmptyString => true
  | String c rest => negb (Ascii.eqb c ".") && no_dot rest
  end.

Definition is_segment (s : string) : Prop :=
  s ≠ EmptyString ∧ no_dot s = true.

(** [new Set(keys)]: insertion order, first occurrence kept. *)
Definition Set_add (s : list string) (key : string) : list string :=
  if decide (key ∈ s) then s else s ++ [key].

Definition Set_from (keys : list string) : list string :=
  foldl Set_add [] keys.

Section Diff.
Context {E : Engine}.

(** ** Values *)

(** [JOpaque] stands for a function or a symbol: a value whose [typeof] is
    neither a scalar type nor ['object'].  It carries the text
    [String(value)] yields. *)
Local Unset Elimination Schemes.
Inductive JsValue : Type :=
| JUndefined
| JNull
| JBool (b : bool)
| JNumber (n : number)
| JString (s : string)
| JArray (items : list JsValue)
| JObject (entries : list (string * JsValue))
| JOpaque (text : string).
Local Set Elimination Schemes.

(** The members of [Object.prototype], from which every plain object
    inherits: the constructor, the methods, and the accessor [__proto__],
    whose getter returns [Object.prototype] itself, an object without
    enumerable own properties.  A method carries the text [String(method)]
    gives in V8; no function of this program reads that text. *)
Definition Object_prototype_methods : list string :=
  ["__defineGetter__"; "__defineSetter__"; "hasOwnProperty";
   "__lookupGetter__"; "__lookupSetter__"; "isPrototypeOf";
   "propertyIsEnumerable"; "toString"; "valueOf"; "toLocaleString"].

Definition Object_prototype (key : string) : option JsValue :=
  if decide (key = "__proto__") then Some (JObject [])
  else if decide (key = "constructor")
  then Some (JOpaque "function Object() { [native code] }")
  else if decide (key ∈ Object_prototype_methods)
  then Some (JOpaque ("function " +:+ key +:+ "() { [native code] }"))
  else None.

(** [o[key]] on a plain object: the own property, else the member that
    [Object.prototype] has under that name, else [undefined]. *)
Definition obj_get (o : list (string * JsValue)) (key : string) : JsValue :=
  match obj_lookup o key with
  | Some value => value
  | None => default JUndefined (Object_prototype key)
  end.

(** [entries.sort(([a], [b]) => a.localeCompare(b))].  [Array.prototype.sort]
    is stable; for a comparator that is a consistent order its result is the
    one an insertion sort gives. *)
Fixpoint sort_insert {V} (kv : string * V) (sorted : list (string * V))
  : list (string * V) :=
  match sorted with
  | [] => [kv]
  | kv' :: rest =>
      match localeCompare kv.1 kv'.1 with
      | Gt => kv' :: sort_insert kv rest
      | _ => kv :: sorted
      end
  end.

Definition sort_entries {V} (entries : list (string * V))
  : list (string * V) :=
  foldr sort_insert [] entries.

(** ** [sanitizeValue] (accessibilityDiff.ts, 174-195) *)
Fixpoint sanitizeValue (value : JsValue) : JsValue :=
  match value with
  | JNull => JNull
  | JString _ | JNumber _ | JBool _ => value
  | JArray items => JArray (map sanitizeValue items)
  | JObject entries =>
      JObject (Object_fromEntries (sort_entries
        (map (λ kv, (kv.1, sanitizeValue kv.2)) entries)))
  | JUndefined => JString "undefined"
  | JOpaque text => JString text
  end.

(** ** [toComparable] (accessibilityDiff.ts, 231-242) *)
Fixpoint toComparable (value : JsValue) : JsValue :=
  match value with
  | JArray items => JArray (map toComparable items)
  | JObject entries =>
      JObject (Object_fromEntries (sort_entries
        (map (λ kv, (kv.1, toComparable kv.2)) entries)))
  | _ => value
  end.

(** [JSON.stringify(value)]: [None] is the result [undefined].  An array
    element without a serialization is written [null]; an object property
    without one is left out. *)
Fixpoint JSON_stringify (value : JsValue) : option string :=
  match value with
  | JUndefined | JOpaque _ => None
  | JNull => Some "null"
  | JBool b => Some (if b then "true" else "false")
  | JNumber n =>
      Some (if Number_isFinite n then Number_toString n else "null")
  | JString s => Some (QuoteJSONString s)
  | JArray items =>
      Some ("[" +:+ join ","
              (map (λ item, default "null" (JSON_stringify item)) items)
            +:+ "]")
  | JObject entries =>
      Some ("{" +:+ join ","
              (omap (λ kv, match JSON_stringify kv.2 with
                           | Some text =>
                               Some (QuoteJSONString kv.1 +:+ ":" +:+ text)
                           | None => None
                           end) entries)
            +:+ "}")
  end.

(** ** [stableStringify] and [areEqual] (accessibilityDiff.ts, 223-229) *)
Definition stableStringify (value : JsValue) : option string :=
  JSON_stringify (toComparable value).

Definition areEqual (a b : JsValue) : bool :=
  bool_decide (stableStringify a = stableStringify b).

(** ** Raw and normalized nodes *)

(** A raw node of the captured tree: its own properties other than the
    child list, in enumeration order, and its children.  The raw [id] of a
    [TextSnapshotNode] and the identity hints are among the attributes. *)
Local Unset Elimination Schemes.
Inductive TextSnapshotNode : Type :=
| SnapshotNode (attributes : list (string * JsValue))
               (children : list TextSnapshotNode).
Local Set Elimination Schemes.

Definition node_attributes (node : TextSnapshotNode)
  : list (string * JsValue) :=
  match node with SnapshotNode attributes _ => attributes end.

Definition node_children (node : TextSnapshotNode) : list TextSnapshotNode :=
  match node with SnapshotNode _ children => children end.

Record TextSnapshot := { root : TextSnapshotNode }.

Record NormalizedAXNode := {
  id : string;
  path : string;
  role : option string;
  name : option string;
  data : list (string * JsValue);
  parentId : option string;
}.

Record NormalizedSnapshot := {
  capturedAt : string;
  nodes : list (string * NormalizedAXNode);
}.

Record NodeChangeDetail := {
  property : string;
  before : JsValue;
  after : JsValue;
}.

Record NodeChange := {
  change_id : string;
  change_path : string;
  change_role : option string;
  change_name : option string;
  changes : list NodeChangeDetail;
}.

Record SnapshotDiff := {
  added : list NormalizedAXNode;
  removed : list NormalizedAXNode;
  changed : list NodeChange;
}.

(** ** [normalizeName] (accessibilityDiff.ts, 120-137) *)
Definition normalizeName (value : JsValue) : option string :=
  match value with
  | JString s => Some s
  | JNumber n => Some (Number_toString n)
  | JObject entries =>
      match obj_lookup entries "value" with
      | Some (JString s) => Some s
      | Some (JNumber n) => Some (Number_toString n)
      | _ => None
      end
  | _ => None
  end.

(** ** [getStableNodeId] (accessibilityDiff.ts, 139-158) *)
Definition getStableNodeId (node : TextSnapshotNode) (path : string)
  : string :=
  let identifiers : list string := [] in
  let identifiers :=
    match obj_get (node_attributes node) "backendDOMNodeId" with
    | JNumber n => identifiers ++ ["backend:" +:+ Number_toString n]
    | _ => identifiers
    end in
  let identifiers :=
    match obj_get (node_attributes node) "nodeId" with
    | JNumber n => identifiers ++ ["node:" +:+ Number_toString n]
    | _ => identifiers
    end in
  let identifiers :=
    match obj_get (node_attributes node) "axId" with
    | JString s => identifiers ++ ["ax:" +:+ s]
    | _ => identifiers
    end in
  match identifiers with
  | [] => "path:" +:+ path
  | _ => join "|" identifiers
  end.

(** ** [sanitizeNodeData] (accessibilityDiff.ts, 160-172) *)
Definition sanitizeNodeData (node : TextSnapshotNode)
  : list (string * JsValue) :=
  foldl (λ data kv,
           if String.eqb kv.1 "children" || String.eqb kv.1 "id" then data
           else match kv.2 with
                | JUndefined => data
                | value => obj_set data kv.1 (sanitizeValue value)
                end)
        [] (node_attributes node).

(** ** [traverse] (accessibilityDiff.ts, 93-118) *)

(** The normalized node [traverse] builds for [node] at [pathSegments]. *)
Definition normalizeNode (node : TextSnapshotNode)
  (pathSegments : list string) (parentId : option string)
  : NormalizedAXNode :=
  let path := join "." pathSegments in
  let id := getStableNodeId node path in
  let data := sanitizeNodeData node in
  {| id := id;
     path := path;
     role := match obj_get data "role" with
             | JString s => Some s
             | _ => None
             end;
     name := match obj_get data "name" with
             | JString s => Some s
             | other => normalizeName other
             end;
     data := data;
     parentId := parentId |}.

Fixpoint traverse (node : TextSnapshotNode) (pathSegments : list string)
  (parentId : option string) (nodes : list (string * NormalizedAXNode))
  {struct node} : list (string * NormalizedAXNode) :=
  match node with
  | SnapshotNode _ children =>
      let normalized := normalizeNode node pathSegments parentId in
      let nodes := obj_set nodes (id normalized) normalized in
      forEach (λ child index nodes,
                 traverse child (pathSegments ++ [String_nat index])
                   (Some (id normalized)) nodes)
              children 0 nodes
  end.

(** ** [normalizeSnapshot] (accessibilityDiff.ts, 43-50)

    [now] is what [new Date().toISOString()] returns at the call. *)
Definition normalizeSnapshot (snapshot : TextSnapshot) (now : string)
  : NormalizedSnapshot :=
  {| capturedAt := now;
     nodes := traverse (root snapshot) ["0"] None [] |}.

(** ** [diffNode] (accessibilityDiff.ts, 197-221) *)
Definition diffNode (baseline current : NormalizedAXNode)
  : list NodeChangeDetail :=
  let keys := Set_from (obj_keys (data baseline) ++ obj_keys (data current)) in
  foldl (λ differences key,
           let baselineValue := obj_get (data baseline) key in
           let currentValue := obj_get (data current) key in
           if areEqual baselineValue currentValue then differences
           else differences ++ [{| property := key;
                                   before := baselineValue;
                                   after := currentValue |}])
        [] keys.

(** ** [diffSnapshots] (accessibilityDiff.ts, 52-85) *)

(** [a ?? b] *)
Definition nullish_or {A} (a b : option A) : option A :=
  match a with Some _ => a | None => b end.

(** One turn of the first loop: the entry [(id, currentNode)] of
    [current.nodes] against the baseline.  [baseline.nodes[id]] is read as
    an own property: see [own_ids] for the ids this is exact for. *)
Definition diff_current_entry (baseline : NormalizedSnapshot)
  (acc : list NormalizedAXNode * list NodeChange)
  (entry : string * NormalizedAXNode)
  : list NormalizedAXNode * list NodeChange :=
  let currentNode := entry.2 in
  match obj_lookup (nodes baseline) entry.1 with
  | None => (acc.1 ++ [currentNode], acc.2)
  | Some previousNode =>
      match diffNode previousNode currentNode with
      | [] => acc
      | nodeDiff =>
          (acc.1,
           acc.2 ++ [{| change_id := entry.1;
                        change_path := path currentNode;
                        change_role :=
                          nullish_or (role currentNode) (role previousNode);
                        change_name :=
                          nullish_or (name currentNode) (name previousNode);
                        changes := nodeDiff |}])
      end
  end.

(** One turn of the second loop, with [current.nodes[id]] read as an own
    property. *)
Definition diff_baseline_entry (current : NormalizedSnapshot)
  (removed : list NormalizedAXNode) (entry : string * NormalizedAXNode)
  : list NormalizedAXNode :=
  match obj_lookup (nodes current) entry.1 with
  | None => removed ++ [entry.2]
  | Some _ => removed
  end.

Definition diffSnapshots (baseline current : NormalizedSnapshot)
  : SnapshotDiff :=
  let found := foldl (diff_current_entry baseline) ([], []) (nodes current) in
  let removed := foldl (diff_baseline_entry current) [] (nodes baseline) in
  {| added := found.1; removed := removed; changed := found.2 |}.

(** ** [hasSnapshotChanges] (accessibilityDiff.ts, 87-91) *)
Definition hasSnapshotChanges (diff : SnapshotDiff) : bool :=
  (0 <? length (added diff))%nat
  || (0 <? length (removed diff))%nat
  || (0 <? length (changed diff))%nat.

(** ** The baseline store *)

(** Modelled from the spec: the session context's baseline store, whose
    class (McpContext) is not among the sources.  Section 4.6 describes it
    as a mapping from caller-chosen keys to normalized snapshots with
    [get(key)] returning the stored snapshot or nothing and [set(key,
    snapshot)] storing it under the key. *)
Definition getAccessibilityBaseline
  (store : gmap string NormalizedSnapshot) (key : string)
  : option NormalizedSnapshot :=
  store !! key.

Definition setAccessibilityBaseline
  (store : gmap string NormalizedSnapshot) (key : string)
  (snapshot : NormalizedSnapshot) : gmap string NormalizedSnapshot :=
  <[key := snapshot]> store.

(** ** Report formatting (snapshot.ts, 179-206) *)

(** [role ? `[${role}]` : '[unknown role]'] and the like: an absent or
    empty string is falsy. *)
Definition truthy (s : option string) : option string :=
  match s with
  | Some EmptyString => None
  | other => other
  end.

Definition formatSummary (role name : option string) (path : string)
  : string :=
  let role := match truthy role with
              | Some r => "[" +:+ r +:+ "]"
              | None => "[unknown role]"
              end in
  let name := match truthy name with
              | Some n => " " +:+ dquote +:+ n +:+ dquote
              | None => EmptyString
              end in
  role +:+ name +:+ " at path " +:+ path.

Definition formatNodeSummary (node : NormalizedAXNode) : string :=
  formatSummary (role node) (name node) (path node).

Definition formatChangeSummary (change : NodeChange) : string :=
  formatSummary (change_role change) (change_name change)
    (change_path change).

(** A value [JSON.stringify] gives no text for is rendered by the
    template literal as [undefined]. *)
Definition formatDiffValue (value : JsValue) : string :=
  match value with
  | JNull => "null"
  | JUndefined => "undefined"
  | JString s => QuoteJSONString s
  | JNumber n => Number_toString n
  | JBool b => if b then "true" else "false"
  | other => default "undefined" (JSON_stringify other)
  end.

(** ** [takeChangeSnapshot] (snapshot.ts, 110-177) *)

Record Params := {
  baselineKey : option string;
  replaceBaseline : option bool;
  compareTo : option string;
}.

(** [param?.trim() || fallback] *)
Definition trimmed_or (param : option string) (fallback : string) : string :=
  match param with
  | Some s =>
      match String_trim s with
      | EmptyString => fallback
      | t => t
      end
  | None => fallback
  end.

(** The lines the handler appends for a diff that has changes. *)
Definition changeReport (compareKey : string) (diff : SnapshotDiff)
  : list string :=
  ["Accessibility changes compared to baseline " +:+ dquote +:+ compareKey
     +:+ dquote +:+ ":";
   "Added nodes: " +:+ String_nat (length (added diff))
     +:+ ", Removed nodes: " +:+ String_nat (length (removed diff))
     +:+ ", Changed nodes: " +:+ String_nat (length (changed diff))]
  ++ (match added diff with
      | [] => []
      | nodes => "## Added" :: map (λ node, "- " +:+ formatNodeSummary node) nodes
      end)
  ++ (match removed diff with
      | [] => []
      | nodes =>
          "## Removed" :: map (λ node, "- " +:+ formatNodeSummary node) nodes
      end)
  ++ (match changed diff with
      | [] => []
      | entries =>
          "## Changed" ::
          flat_map (λ change,
            ("- " +:+ formatChangeSummary change) ::
            map (λ detail,
                   "  - " +:+ property detail +:+ ": "
                   +:+ formatDiffValue (before detail) +:+ " -> "
                   +:+ formatDiffValue (after detail))
                (changes change)) entries
      end).

(** The handler.  [capture] is what [context.captureAccessibilitySnapshot()]
    resolved to ([None]: nothing could be captured), [now] the clock reading
    of this call; the result is the response lines after the call and the
    store after the call. *)
Definition takeChangeSnapshot (params : Params)
  (capture : option TextSnapshot) (now : string)
  (response : list string) (store : gmap string NormalizedSnapshot)
  : list string * gmap string NormalizedSnapshot :=
  let baselineKey := trimmed_or (baselineKey params) "default" in
  let compareKey := trimmed_or (compareTo params) baselineKey in
  let replaceBaseline := default true (replaceBaseline params) in
  match capture with
  | None =>
      (response ++
         ["Unable to capture accessibility snapshot for the current page."],
       store)
  | Some snapshot =>
      let normalizedSnapshot := normalizeSnapshot snapshot now in
      match getAccessibilityBaseline store compareKey with
      | None =>
          (response ++
             ["No baseline found for key " +:+ dquote +:+ compareKey
                +:+ dquote
                +:+ ". Created a baseline with the current snapshot."],
           setAccessibilityBaseline store baselineKey normalizedSnapshot)
      | Some baseline =>
          let diff := diffSnapshots baseline normalizedSnapshot in
          let response :=
            if negb (hasSnapshotChanges diff) then
              response ++
                ["No accessibility changes compared to baseline " +:+ dquote
                   +:+ compareKey +:+ dquote +:+ "."]
            else response ++ changeReport compareKey diff in
          (response,
           if replaceBaseline
           then setAccessibilityBaseline store baselineKey normalizedSnapshot
           else store)
      end
  end.

(** ** Notions the statements below use *)

(** The writes [nodes[id] = normalized] that [traverse] performs for a tree:
    one pair per raw node, in pre-order. *)
Fixpoint visits (node : TextSnapshotNode) (pathSegments : list string)
  (parentId : option string) {struct node}
  : list (string * NormalizedAXNode) :=
  match node with
  | SnapshotNode _ children =>
      let normalized := normalizeNode node pathSegments parentId in
      (id normalized, normalized) ::
      concat_indexed (λ child index,
                        visits child (pathSegments ++ [String_nat index])
                          (Some (id normalized)))
                     children 0
  end.

(** The places of the raw nodes of a tree, each the child indices that
    lead to it from the root, in pre-order. *)
Fixpoint positions (node : TextSnapshotNode) : list (list nat) :=
  match node with
  | SnapshotNode _ children =>
      [] :: concat_indexed (λ child index, cons index <$> positions child)
              children 0
  end.

(** The number of raw nodes of a tree. *)
Fixpoint node_count (node : TextSnapshotNode) : nat :=
  match node with
  | SnapshotNode _ children => S (sum_list (map node_count children))
  end.

(** The ids [getStableNodeId] gives the raw nodes of a capture, in
    pre-order. *)
Definition stable_ids (snapshot : TextSnapshot) : list string :=
  (visits (root snapshot) ["0"] None).*1.

(** A node carries an identity hint when [getStableNodeId] finds a numeric
    [backendDOMNodeId], a numeric [nodeId] or a string [axId]. *)
Definition has_hint (node : TextSnapshotNode) : bool :=
  match obj_get (node_attributes node) "backendDOMNodeId" with
  | JNumber _ => true
  | _ => false
  end
  || match obj_get (node_attributes node) "nodeId" with
     | JNumber _ => true
     | _ => false
     end
  || match obj_get (node_attributes node) "axId" with
     | JString _ => true
     | _ => false
     end.

Fixpoint hint_free (node : TextSnapshotNode) : bool :=
  match node with
  | SnapshotNode _ children =>
      negb (has_hint node) && forallb hint_free children
  end.

(** What holds of every snapshot [normalizeSnapshot] builds: the keys of
    [nodes] are distinct (it is an object) and each node is stored under its
    own id. *)
Definition wf_snapshot (snapshot : NormalizedSnapshot) : Prop :=
  NoDup (obj_keys (nodes snapshot))
  ∧ Forall (λ entry, id entry.2 = entry.1) (nodes snapshot).

(** No id of the snapshot is the name of a member of [Object.prototype]:
    the reads [baseline.nodes[id]] and [current.nodes[id]] of [diffSnapshots]
    then see own properties only.  Every snapshot [normalizeSnapshot] builds
    is such, its ids begin with [path:], [backend:], [node:] or [ax:]. *)
Definition own_ids (snapshot : NormalizedSnapshot) : Prop :=
  Forall (λ key, Object_prototype key = None) (obj_keys (nodes snapshot)).

(** A test that every id passes and no name of a member of
    [Object.prototype] does: the key begins with [pa], [b], [n] or [a], as
    [path:], [backend:], [node:] and [ax:] do. *)
Definition id_prefixed (key : string) : bool :=
  match key with
  | String "p" (String "a" _) | String "b" _ | String "n" _
  | String "a" _ => true
  | _ => false
  end.

(** The values [sanitizeValue] returns: no [undefined], function or symbol
    is left anywhere in them. *)
Fixpoint is_sanitized (value : JsValue) : bool :=
  match value with
  | JUndefined | JOpaque _ => false
  | JNull | JBool _ | JNumber _ | JString _ => true
  | JArray items => forallb is_sanitized items
  | JObject entries => forallb (λ kv, is_sanitized kv.2) entries
  end.

(** The [data] of a normalized node holds sanitized values only. *)
Definition sanitized_data (data : list (string * JsValue)) : Prop :=
  Forall (λ kv, is_sanitized kv.2 = true) data.

(** What one key contributes to [diffNode], and what one entry contributes
    to each list of [diffSnapshots]: the bodies of the loops. *)
Definition change_of (baseline current : NormalizedAXNode) (key : string)
  : option NodeChangeDetail :=
  let baselineValue := obj_get (data baseline) key in
  let currentValue := obj_get (data current) key in
  if areEqual baselineValue currentValue then None
  else Some {| property := key;
               before := baselineValue;
               after := currentValue |}.

Definition added_of (baseline : NormalizedSnapshot)
  (entry : string * NormalizedAXNode) : option NormalizedAXNode :=
  match obj_lookup (nodes baseline) entry.1 with
  | None => Some entry.2
  | Some _ => None
  end.

Definition changed_of (baseline : NormalizedSnapshot)
  (entry : string * NormalizedAXNode) : option NodeChange :=
  match obj_lookup (nodes baseline) entry.1 with
  | None => None
  | Some previousNode =>
      match diffNode previousNode entry.2 with
      | [] => None
      | nodeDiff =>
          Some {| change_id := entry.1;
                  change_path := path entry.2;
                  change_role :=
                    nullish_or (role entry.2) (role previousNode);
                  change_name :=
                    nullish_or (name entry.2) (name previousNode);
                  changes := nodeDiff |}
      end
  end.

Definition removed_of (current : NormalizedSnapshot)
  (entry : string * NormalizedAXNode) : option NormalizedAXNode :=
  match obj_lookup (nodes current) entry.1 with
  | None => Some entry.2
  | Some _ => None
  end.

(** The ids a diff reports, list by list. *)
Definition reported_ids (diff : SnapshotDiff) : list string :=
  (id <$> added diff) ++ (id <$> removed diff)
  ++ (change_id <$> changed diff).

(** [swapped_siblings a b t t']: [t'] is [t] with the siblings [a] and [b]
    exchanged, each with the nodes below it. *)
Inductive swapped_siblings (a b : TextSnapshotNode)
  : TextSnapshotNode → TextSnapshotNode → Prop :=
| swapped_here attributes before between after :
    swapped_siblings a b
      (SnapshotNode attributes (before ++ a :: between ++ b :: after))
      (SnapshotNode attributes (before ++ b :: between ++ a :: after))
| swapped_below attributes before child child' after :
    swapped_siblings a b child child' →
    swapped_siblings a b
      (SnapshotNode attributes (before ++ child :: after))
      (SnapshotNode attributes (before ++ child' :: after)).

(** The node at a place of a tree, the place given by the child indices
    that lead to it. *)
Fixpoint node_at (node : TextSnapshotNode) (place : list nat)
  : option TextSnapshotNode :=
  match place with
  | [] => Some node
  | index :: rest =>
      match node_children node !! index with
      | Some child => node_at child rest
      | None => None
      end
  end.

(** The node at a place of a tree is identified by its path when it carries
    no identity hint; two trees have their path-identified nodes at the
    same places when each has such a node wherever the other has one. *)
Definition path_identified (node : TextSnapshotNode) (place : list nat)
  : Prop :=
  ∃ raw, node_at node place = Some raw ∧ has_hint raw = false.

Definition same_path_identified (a b : TextSnapshotNode) : Prop :=
  ∀ place, path_identified a place ↔ path_identified b place.

(** No node of the tree has an own property named [__proto__]. *)
Fixpoint proto_free (node : TextSnapshotNode) : bool :=
  match node with
  | SnapshotNode attributes children =>
      negb (bool_decide ("__proto__" ∈ obj_keys attributes))
      && forallb proto_free children
  end.

(** The data of two raw nodes differ when [areEqual] tells the values of
    some property apart. *)
Definition data_differ (a b : TextSnapshotNode) : Prop :=
  ∃ key, areEqual (obj_get (sanitizeNodeData a) key)
                  (obj_get (sanitizeNodeData b) key) = false.

(** The visits of two trees that differ by the exchange of the siblings [a]
    and [b]: the same visits around the two subtrees, which stand at two
    places [i] and [j] under one parent. *)
Definition swap_frame (a b : TextSnapshotNode)
  (V V' : list (string * NormalizedAXNode)) : Prop :=
  ∃ X Y Z L (i j : nat) parent,
    i ≠ j ∧ Forall is_segment L
    ∧ V = X ++ visits a (L ++ [String_nat i]) parent
            ++ Y ++ visits b (L ++ [String_nat j]) parent ++ Z
    ∧ V' = X ++ visits b (L ++ [String_nat i]) parent
             ++ Y ++ visits a (L ++ [String_nat j]) parent ++ Z.

(** The paths of the visits are distinct, and a visit stored under a path
    id is the visit of the node at that path. *)
Definition paths_ok (V : list (string * NormalizedAXNode)) : Prop :=
  NoDup (path <$> V.*2)
  ∧ Forall (λ entry, ∀ q, entry.1 = "path:" +:+ q → path entry.2 = q) V.

(** The collation tells the keys of an object apart. *)
Definition collation_separates (keys : list string) : Prop :=
  ∀ a b, a ∈ keys → b ∈ keys → localeCompare a b = Eq → a = b.

(** [localeCompare] is a consistent comparator: exchanging the arguments
    flips the sign, and the order is transitive. *)
Definition consistent_collation : Prop :=
  (∀ a b, localeCompare b a = CompOpp (localeCompare a b))
  ∧ (∀ a b c, localeCompare a b ≠ Gt → localeCompare b c ≠ Gt →
              localeCompare a c ≠ Gt).

(** The order the comparator puts entries in. *)
Definition collation_le {V} (a b : string * V) : Prop :=
  localeCompare a.1 b.1 ≠ Gt.

(** [reordered_keys entries entries' t t']: [t'] is [t] except that the
    object one attribute of one node holds has [entries'], the properties
    [entries] in another insertion order. *)
Inductive reordered_keys (entries entries' : list (string * JsValue))
  : TextSnapshotNode → TextSnapshotNode → Prop :=
| reordered_here before key after children :
    entries ≡ₚ entries' →
    NoDup (obj_keys entries) →
    reordered_keys entries entries'
      (SnapshotNode (before ++ (key, JObject entries) :: after) children)
      (SnapshotNode (before ++ (key, JObject entries') :: after) children)
| reordered_below attributes before child child' after :
    reordered_keys entries entries' child child' →
    reordered_keys entries entries'
      (SnapshotNode attributes (before ++ child :: after))
      (SnapshotNode attributes (before ++ child' :: after)).

End Diff.

(** * A reference host and sample captures

    A host to run the definitions on: its numbers are the integers, its
    collation compares code units, its JSON quoting escapes the quote and
    the backslash, and its [trim] removes ASCII white space. *)

Definition ref_Number_toString (z : Z) : string :=
  match z with
  | Z0 => "0"
  | Zpos p => String_nat (Pos.to_nat p)
  | Zneg p => "-" +:+ String_nat (Pos.to_nat p)
  end.

Fixpoint ref_escape (s : string) : string :=
  match s with
  | EmptyString => EmptyString
  | String c rest =>
      if Ascii.eqb c (ascii_of_nat 34) || Ascii.eqb c (ascii_of_nat 92)
      then String (ascii_of_nat 92) (String c (ref_escape rest))
      else String c (ref_escape rest)
  end.

Definition ref_QuoteJSONString (s : string) : string :=
  dquote +:+ ref_escape s +:+ dquote.

Definition is_space (c : ascii) : bool :=
  let n := nat_of_ascii c in
  (n =? 32)%nat || ((9 <=? n)%nat && (n <=? 13)%nat).

Fixpoint trim_start (s : string) : string :=
  match s with
  | EmptyString => EmptyString
  | String c rest => if is_space c then trim_start rest else s
  end.

Definition ref_trim (s : string) : string :=
  String.rev (trim_start (String.rev (trim_start s))).

Definition refEngine : Engine := {|
  number := Z;
  Number_toString := ref_Number_toString;
  Number_isFinite := λ _, true;
  QuoteJSONString := ref_QuoteJSONString;
  localeCompare := String.compare;
  String_trim := ref_trim;
|}.

#[local] Existing Instance refEngine.

(** A list with two items that carry no identity hint, and the same list
    with the items exchanged. *)
Definition item_first : TextSnapshotNode :=
  SnapshotNode [("id", JString "1_1"); ("role", JString "listitem");
                ("name", JString "first")] [].

Definition item_second : TextSnapshotNode :=
  SnapshotNode [("id", JString "1_2"); ("role", JString "listitem");
                ("name", JString "second")] [].

Definition list_first_second : TextSnapshotNode :=
  SnapshotNode [("id", JString "1_0"); ("role", JString "list")]
    [item_first; item_second].

Definition list_second_first : TextSnapshotNode :=
  SnapshotNode [("id", JString "1_0"); ("role", JString "list")]
    [item_second; item_first].

(** A list whose two items are alike. *)
Definition list_first_first : TextSnapshotNode :=
  SnapshotNode [("id", JString "1_0"); ("role", JString "list")]
    [item_first; item_first].

(** A list whose first item is a group of one item, and the same list with
    the two items exchanged. *)
Definition group_of_first : TextSnapshotNode :=
  SnapshotNode [("role", JString "group")] [item_first].

Definition list_group_second : TextSnapshotNode :=
  SnapshotNode [("id", JString "1_0"); ("role", JString "list")]
    [group_of_first; item_second].

Definition list_second_group : TextSnapshotNode :=
  SnapshotNode [("id", JString "1_0"); ("role", JString "list")]
    [item_second; group_of_first].

(** A node that carries the three identity hints. *)
Definition hinted_button : TextSnapshotNode :=
  SnapshotNode [("id", JString "1_3"); ("role", JString "button");
                ("name", JString "Toggle");
                ("backendDOMNodeId", JNumber 7%Z); ("nodeId", JNumber 3%Z);
                ("axId", JString "ax-1")] [].

(** Two nodes with the same backend DOM identifier. *)
Definition twice_backend_5 : TextSnapshotNode :=
  SnapshotNode [("role", JString "group"); ("backendDOMNodeId", JNumber 5%Z)]
    [SnapshotNode [("role", JString "button");
                   ("backendDOMNodeId", JNumber 5%Z)] []].

(** The page of the repository's test: a toggle button, before and after it
    is pressed and gains a [focused] attribute. *)
Definition page_before : TextSnapshotNode :=
  SnapshotNode [("role", JString "main")]
    [SnapshotNode [("role", JString "button"); ("name", JString "Toggle");
                   ("pressed", JString "false")] []].

Definition page_after : TextSnapshotNode :=
  SnapshotNode [("role", JString "main")]
    [SnapshotNode [("role", JString "button"); ("name", JString "Toggle");
                   ("pressed", JString "true"); ("focused", JBool true)] [];
     SnapshotNode [("role", JString "alert");
                   ("name", JString "New message")] []].

(** A slider whose [value] object has its keys in two insertion orders. *)
Definition value_min_max : list (string * JsValue) :=
  [("min", JNumber 0%Z); ("max", JNumber 10%Z)].

Definition value_max_min : list (string * JsValue) :=
  [("max", JNumber 10%Z); ("min", JNumber 0%Z)].

Definition slider_min_max : TextSnapshotNode :=
  SnapshotNode [("role", JString "slider"); ("value", JObject value_min_max)]
    [].

Definition slider_max_min : TextSnapshotNode :=
  SnapshotNode [("role", JString "slider"); ("value", JObject value_max_min)]
    [].

(** A store that holds a baseline of the list under the key [default]. *)
Definition store_default : gmap string NormalizedSnapshot :=
  {[ "default" :=
       normalizeSnapshot {| root := list_first_second |}
         "2025-01-01T00:00:00.000Z" ]}.

(** A request that names the baseline key [chat] and compares with the key
    [other]. *)
Definition params_chat_other : Params :=
  {| baselineKey := Some "chat"; replaceBaseline := None;
     compareTo := Some "other" |}.

Definition params_default : Params :=
  {| baselineKey := None; replaceBaseline := None; compareTo := None |}.

Definition store_chat : gmap string NormalizedSnapshot :=
  {[ "chat" :=
       normalizeSnapshot {| root := list_first_second |}
         "2025-01-01T00:00:00.000Z" ]}.

(** A host whose numbers are the integers and one value that is not a
    number; everything else as in the reference host. *)
Definition nan_host : Engine := {|
  number := option Z;
  Number_toString := λ n, match n with
                          | Some z => ref_Number_toString z
                          | None => "NaN"
                          end;
  Number_isFinite := λ n, match n with Some _ => true | None => false end;
  QuoteJSONString := ref_QuoteJSONString;
  localeCompare := String.compare;
  String_trim := ref_trim;
|}.

(** A host whose collation, as that of ICU does, compares canonically
    equivalent strings as equal.  Strings hold UTF-8; the host knows one
    equivalence, that of the letter [e] followed by the combining acute
    accent (U+0301) with the precomposed letter (U+00E9), and compares code
    units once the former is composed.  Everything else is as in the
    reference host. *)
Definition e_acute_composed : string :=
  String (ascii_of_nat 195) (String (ascii_of_nat 169) EmptyString).

Definition e_acute_decomposed : string :=
  String "e" (String (ascii_of_nat 204) (String (ascii_of_nat 129)
                                            EmptyString)).

Fixpoint compose_acute (s : string) : string :=
  match s with
  | EmptyString => EmptyString
  | String c rest =>
      match rest with
      | String c1 (String c2 rest') =>
          if Ascii.eqb c "e" && Ascii.eqb c1 (ascii_of_nat 204)
             && Ascii.eqb c2 (ascii_of_nat 129)
          then String (ascii_of_nat 195)
                 (String (ascii_of_nat 169) (compose_acute rest'))
          else String c (compose_acute rest)
      | _ => String c (compose_acute rest)
      end
  end.

Definition icu_host : Engine := {|
  number := Z;
  Number_toString := ref_Number_toString;
  Number_isFinite := λ _, true;
  QuoteJSONString := ref_QuoteJSONString;
  localeCompare := λ a b, String.compare (compose_acute a) (compose_acute b);
  String_trim := ref_trim;
|}.

(** A label whose [value] object has two keys that are canonically
    equivalent, in two insertion orders. *)
Section AccentedKeys.
#[local] Existing Instance icu_host.

Definition accents_composed_first : list (string * JsValue) :=
  [(e_acute_composed, JNumber 1%Z); (e_acute_decomposed, JNumber 2%Z)].

Definition accents_decomposed_first : list (string * JsValue) :=
  [(e_acute_decomposed, JNumber 2%Z); (e_acute_composed, JNumber 1%Z)].

Definition label_composed_first : TextSnapshotNode :=
  SnapshotNode [("role", JString "label");
                ("value", JObject accents_composed_first)] [].

Definition label_decomposed_first : TextSnapshotNode :=
  SnapshotNode [("role", JString "label");
                ("value", JObject accents_decomposed_first)] [].

End AccentedKeys.

(** A widget, and the widget with an attribute whose name is the name of a
    member of [Object.prototype]. *)
Definition widget_plain : TextSnapshotNode :=
  SnapshotNode [("role", JString "button")] [].

Definition widget_constructor : TextSnapshotNode :=
  SnapshotNode [("role", JString "button");
                ("constructor", JString "Widget")] [].

(** A request that opts out of replacing the baseline. *)
Definition params_keep : Params :=
  {| baselineKey := Some "chat"; replaceBaseline := Some false;
     compareTo := None |}.

(** * Facts about plain objects *)

Section ObjectFacts.
Context {V : Type}.
Implicit Types (o : list (string * V)) (key : string) (value : V).

Lemma obj_lookup_None o key :
  obj_lookup o key = None ↔ key ∉ obj_keys o.
Proof.
  unfold obj_keys. induction o as [|[k v] o IH]; simpl.
  - split; [intros _; apply not_elem_of_nil | done].
  - rewrite not_elem_of_cons. destruct (String.eqb_spec k key) as [->|Hne].
    + split; [done | intros [[] _]; done].
    + rewrite IH. split; [intros ?; split; [intros ->; by apply Hne | done] | by intros [_ ?]].
Qed.

Lemma obj_lookup_Some_elem o key value :
  obj_lookup o key = Some value → (key, value) ∈ o.
Proof.
  induction o as [|[k v] o IH]; simpl; [done|].
  destruct (String.eqb_spec k key) as [->|Hne].
  - intros [= ->]. apply list_elem_of_here.
  - intros H. apply list_elem_of_further, IH, H.
Qed.

Lemma obj_lookup_is_Some o key :
  is_Some (obj_lookup o key) ↔ key ∈ obj_keys o.
Proof.
  rewrite <- not_eq_None_Some, obj_lookup_None.
  split; [apply dec_stable | tauto].
Qed.

Lemma obj_lookup_NoDup o key value :
  NoDup (obj_keys o) → (key, value) ∈ o → obj_lookup o key = Some value.
Proof.
  unfold obj_keys. induction o as [|[k v] o IH]; simpl.
  - intros _ H. by apply elem_of_nil in H.
  - rewrite NoDup_cons. intros [Hk Hnd] Hin.
    apply elem_of_cons in Hin as [[= -> ->]|Hin].
    + by rewrite String.eqb_refl.
    + destruct (String.eqb_spec k key) as [->|Hne]; [|by apply IH].
      exfalso. apply Hk. apply list_elem_of_fmap. by exists (key, value).
Qed.

Lemma obj_lookup_replace o key value key' :
  obj_lookup (obj_replace o key value) key'
  = if decide (key = key')
    then (match obj_lookup o key with Some _ => Some value | None => None end)
    else obj_lookup o key'.
Proof.
  induction o as [|[k v] o IH]; simpl.
  - by case_decide.
  - destruct (String.eqb_spec k key) as [->|Hne]; simpl.
    + case_decide as Hk; [subst; by rewrite String.eqb_refl|].
      by destruct (String.eqb_spec key key').
    + rewrite IH. case_decide as Hk; [subst|done].
      by destruct (String.eqb_spec k key').
Qed.

Lemma obj_lookup_insert_index o i key value key' :
  obj_lookup o key = None →
  obj_lookup (obj_insert_index o i key value) key'
  = if decide (key = key') then Some value else obj_lookup o key'.
Proof.
  assert (Hhere : ∀ o', obj_lookup ((key, value) :: o') key'
    = if decide (key = key') then Some value else obj_lookup o' key').
  { intros o'. simpl. destruct (String.eqb_spec key key'); by case_decide. }
  induction o as [|[k v] o IH]; intros Hnone; [apply Hhere|].
  simpl in Hnone. destruct (String.eqb_spec k key) as [->|Hne]; [done|].
  cbn [obj_insert_index]. destruct (array_index k) as [j|]; [|apply Hhere].
  destruct (j <? i)%N; [|apply Hhere].
  simpl. rewrite (IH Hnone).
  destruct (String.eqb_spec k key'); [subst; by case_decide|done].
Qed.

Lemma obj_lookup_app_None o key value key' :
  obj_lookup o key = None →
  obj_lookup (o ++ [(key, value)]) key'
  = if decide (key = key') then Some value else obj_lookup o key'.
Proof.
  induction o as [|[k v] o IH]; simpl; intros Hnone.
  - destruct (String.eqb_spec key key'); by case_decide.
  - destruct (String.eqb_spec k key) as [->|Hne]; [done|].
    rewrite (IH Hnone).
    destruct (String.eqb_spec k key'); [subst; by case_decide|done].
Qed.

(** Reading after a write. *)
Lemma obj_lookup_set o key value key' :
  obj_lookup (obj_set o key value) key'
  = if decide (key = key') then Some value else obj_lookup o key'.
Proof.
  unfold obj_set. destruct (obj_lookup o key) as [v|] eqn:Hk.
  - by rewrite obj_lookup_replace, Hk.
  - destruct (array_index key).
    + by apply obj_lookup_insert_index.
    + by apply obj_lookup_app_None.
Qed.

Lemma obj_keys_replace o key value :
  is_Some (obj_lookup o key) →
  obj_keys (obj_replace o key value) = obj_keys o.
Proof.
  unfold obj_keys. induction o as [|[k v] o IH]; simpl; [done|].
  destruct (String.eqb_spec k key) as [->|Hne]; simpl; [done|].
  intros H. f_equal. by apply IH.
Qed.

Lemma obj_keys_insert_index o i key value :
  obj_keys (obj_insert_index o i key value) ≡ₚ key :: obj_keys o.
Proof.
  unfold obj_keys. induction o as [|[k v] o IH]; simpl; [done|].
  destruct (array_index k) as [j|]; [|done].
  destruct (j <? i)%N; [|done].
  simpl. rewrite IH. apply Permutation_swap.
Qed.

Lemma obj_keys_set_old o key value :
  key ∈ obj_keys o → obj_keys (obj_set o key value) = obj_keys o.
Proof.
  intros Hin. apply obj_lookup_is_Some in Hin as Hs.
  unfold obj_set. destruct Hs as [v Hv]. rewrite Hv.
  apply obj_keys_replace. by rewrite Hv.
Qed.

Lemma obj_keys_set_new o key value :
  key ∉ obj_keys o → obj_keys (obj_set o key value) ≡ₚ key :: obj_keys o.
Proof.
  intros Hin. apply obj_lookup_None in Hin as Hn.
  unfold obj_set. rewrite Hn. destruct (array_index key).
  - apply obj_keys_insert_index.
  - unfold obj_keys. rewrite fmap_app. simpl.
    by rewrite Permutation_app_comm.
Qed.

(** A write keeps the keys distinct. *)
Lemma obj_set_NoDup o key value :
  NoDup (obj_keys o) → NoDup (obj_keys (obj_set o key value)).
Proof.
  intros Hnd. destruct (decide (key ∈ obj_keys o)) as [Hin|Hin].
  - by rewrite obj_keys_set_old.
  - rewrite obj_keys_set_new by done. by apply NoDup_cons.
Qed.

Lemma obj_fold_set_NoDup (writes : list (string * V)) o :
  NoDup (obj_keys o) →
  NoDup (obj_keys (foldl (λ o kv, obj_set o kv.1 kv.2) o writes)).
Proof.
  revert o. induction writes as [|[k v] ws IH]; intros o Hnd; simpl; [done|].
  apply IH. by apply obj_set_NoDup.
Qed.

(** A write adds nothing but the pair written. *)
Lemma obj_set_elem o key value (entry : string * V) :
  entry ∈ obj_set o key value → entry ∈ o ∨ entry = (key, value).
Proof.
  unfold obj_set. destruct (obj_lookup o key) as [old|].
  - induction o as [|[k' v'] o IH]; simpl; [by left|].
    destruct (String.eqb k' key); rewrite !elem_of_cons; [tauto|].
    intros [->|Hin]; [by left; left|]. destruct (IH Hin); tauto.
  - destruct (array_index key) as [i|].
    + induction o as [|[k' v'] o IH]; simpl.
      * rewrite list_elem_of_singleton. tauto.
      * destruct (array_index k') as [j|]; [destruct (j <? i)%N|];
          rewrite !elem_of_cons; tauto.
    + rewrite elem_of_app, list_elem_of_singleton. tauto.
Qed.

Lemma obj_fold_set_elem (writes : list (string * V)) o
  (entry : string * V) :
  entry ∈ foldl (λ o kv, obj_set o kv.1 kv.2) o writes →
  entry ∈ o ∨ entry ∈ writes.
Proof.
  revert o. induction writes as [|[k v] ws IH]; intros o; simpl; [by left|].
  intros Hin. destruct (IH _ Hin) as [Hset|Hws].
  - destruct (obj_set_elem _ _ _ _ Hset) as [?| ->]; [by left|].
    right. apply list_elem_of_here.
  - right. by apply list_elem_of_further.
Qed.

(** A key that is not an array index is appended by its first write. *)
Lemma obj_set_fresh_append o key value :
  key ∉ obj_keys o → array_index key = None →
  obj_set o key value = o ++ [(key, value)].
Proof.
  intros Hin Hidx. apply obj_lookup_None in Hin.
  unfold obj_set. by rewrite Hin, Hidx.
Qed.

End ObjectFacts.

(** * Facts about normalization *)

Section NormalizeFacts.
Context {E : Engine}.

(** Induction on values, with the hypothesis for every element of an array
    and every property value of an object. *)
Definition JsValue_ind (P : JsValue → Prop)
  (Hundefined : P JUndefined) (Hnull : P JNull)
  (Hbool : ∀ b, P (JBool b)) (Hnumber : ∀ n, P (JNumber n))
  (Hstring : ∀ s, P (JString s))
  (Harray : ∀ items, Forall P items → P (JArray items))
  (Hobject : ∀ entries, Forall (λ kv, P kv.2) entries → P (JObject entries))
  (Hopaque : ∀ text, P (JOpaque text)) : ∀ value, P value :=
  fix go value :=
    match value with
    | JUndefined => Hundefined
    | JNull => Hnull
    | JBool b => Hbool b
    | JNumber n => Hnumber n
    | JString s => Hstring s
    | JArray items =>
        Harray items
          ((fix all l : Forall P l :=
              match l with
              | [] => List.Forall_nil P
              | x :: rest => List.Forall_cons _ x rest (go x) (all rest)
              end) items)
    | JObject entries =>
        Hobject entries
          ((fix all l : Forall (λ kv, P kv.2) l :=
              match l with
              | [] => List.Forall_nil _
              | kv :: rest => List.Forall_cons _ kv rest (go kv.2) (all rest)
              end) entries)
    | JOpaque text => Hopaque text
    end.

(** Induction on raw trees, with the hypothesis for every child. *)
Definition TextSnapshotNode_ind (P : TextSnapshotNode → Prop)
  (Hnode : ∀ attributes children,
     Forall P children → P (SnapshotNode attributes children))
  : ∀ node, P node :=
  fix go node :=
    match node with
    | SnapshotNode attributes children =>
        Hnode attributes children
          ((fix all l : Forall P l :=
              match l with
              | [] => List.Forall_nil P
              | x :: rest => List.Forall_cons _ x rest (go x) (all rest)
              end) children)
    end.

(** [traverse] performs the writes of [visits], in that order. *)
Lemma traverse_visits node :
  ∀ pathSegments parentId nodes,
    traverse node pathSegments parentId nodes
    = foldl (λ o kv, obj_set o kv.1 kv.2) nodes
        (visits node pathSegments parentId).
Proof.
  induction node as [attributes children IH] using TextSnapshotNode_ind.
  intros pathSegments parentId nodes. cbn [traverse visits foldl].
  set (normalized := normalizeNode _ _ _). clearbody normalized.
  cbn [fst snd].
  generalize (obj_set nodes (id normalized) normalized) as acc.
  generalize 0 as index.
  induction IH as [|child rest Hchild _ IHrest]; intros index acc.
  - done.
  - cbn [forEach concat_indexed]. rewrite foldl_app, Hchild. apply IHrest.
Qed.

Lemma normalizeSnapshot_visits snapshot now :
  nodes (normalizeSnapshot snapshot now)
  = foldl (λ o kv, obj_set o kv.1 kv.2) []
      (visits (root snapshot) ["0"] None).
Proof. apply traverse_visits. Qed.

(** The [nodes] of a normalization do not depend on the clock. *)
Lemma normalizeSnapshot_nodes_now snapshot now now' :
  nodes (normalizeSnapshot snapshot now)
  = nodes (normalizeSnapshot snapshot now').
Proof. done. Qed.

(** Every visit stores a node under that node's id. *)
Lemma visits_own_id node :
  ∀ pathSegments parentId,
    Forall (λ entry, id entry.2 = entry.1)
      (visits node pathSegments parentId).
Proof.
  induction node as [attributes children IH] using TextSnapshotNode_ind.
  intros pathSegments parentId. cbn [visits].
  constructor; [done|].
  set (normalized := normalizeNode _ _ _). clearbody normalized.
  generalize 0 as index.
  induction IH as [|child rest Hchild _ IHrest]; intros index.
  - constructor.
  - cbn [concat_indexed]. apply Forall_app; split; [apply Hchild|apply IHrest].
Qed.

Lemma visits_length node :
  ∀ pathSegments parentId,
    length (visits node pathSegments parentId) = node_count node.
Proof.
  induction node as [attributes children IH] using TextSnapshotNode_ind.
  intros pathSegments parentId. cbn [visits node_count length]. f_equal.
  set (normalized := normalizeNode _ _ _). clearbody normalized.
  generalize 0 as index.
  induction IH as [|child rest Hchild _ IHrest]; intros index.
  - done.
  - cbn [concat_indexed map sum_list]. rewrite length_app, Hchild.
    f_equal. apply IHrest.
Qed.

(** Writes keep the invariant that a node is stored under its id. *)
Lemma obj_set_own_id (o : list (string * NormalizedAXNode)) node :
  Forall (λ entry, id entry.2 = entry.1) o →
  Forall (λ entry, id entry.2 = entry.1) (obj_set o (id node) node).
Proof.
  intros Ho. apply Forall_forall. intros entry Hin.
  destruct (obj_set_elem _ _ _ _ Hin) as [Hin'| ->]; [|done].
  by apply (proj1 (Forall_forall _ _) Ho).
Qed.

Lemma fold_set_own_id (writes o : list (string * NormalizedAXNode)) :
  Forall (λ entry, id entry.2 = entry.1) writes →
  Forall (λ entry, id entry.2 = entry.1) o →
  Forall (λ entry, id entry.2 = entry.1)
    (foldl (λ o kv, obj_set o kv.1 kv.2) o writes).
Proof.
  revert o. induction writes as [|[k n] ws IH]; intros o Hws Ho; [done|].
  apply Forall_cons in Hws as [Hk Hws]. simpl in *. subst k.
  apply IH; [done|]. by apply obj_set_own_id.
Qed.

(** Every normalized snapshot is well formed. *)
Lemma normalizeSnapshot_wf snapshot now :
  wf_snapshot (normalizeSnapshot snapshot now).
Proof.
  split; rewrite normalizeSnapshot_visits.
  - apply obj_fold_set_NoDup, NoDup_nil_2.
  - apply fold_set_own_id; [apply visits_own_id|constructor].
Qed.

End NormalizeFacts.

(** * Facts about the diff *)

Section DiffFacts.
Context {E : Engine}.

Lemma Set_add_elem s key key' :
  key' ∈ Set_add s key ↔ key' = key ∨ key' ∈ s.
Proof.
  unfold Set_add. case_decide as Hin.
  - split; [by right | intros [->|?]; done].
  - rewrite elem_of_app, list_elem_of_singleton. tauto.
Qed.

Lemma Set_fold_elem keys s key :
  key ∈ foldl Set_add s keys ↔ key ∈ s ∨ key ∈ keys.
Proof.
  revert s. induction keys as [|k keys IH]; intros s; simpl.
  - rewrite elem_of_nil. tauto.
  - rewrite IH, Set_add_elem, elem_of_cons. tauto.
Qed.

Lemma Set_from_elem keys key : key ∈ Set_from keys ↔ key ∈ keys.
Proof.
  unfold Set_from. rewrite Set_fold_elem, elem_of_nil. tauto.
Qed.

(** The loop of [diffNode] collects [change_of] over the keys. *)
Lemma diffNode_fold baseline current keys acc :
  foldl (λ differences key,
           let baselineValue := obj_get (data baseline) key in
           let currentValue := obj_get (data current) key in
           if areEqual baselineValue currentValue then differences
           else differences ++ [{| property := key;
                                   before := baselineValue;
                                   after := currentValue |}])
        acc keys
  = acc ++ omap (change_of baseline current) keys.
Proof.
  revert acc. induction keys as [|key keys IH]; intros acc; simpl.
  - by rewrite app_nil_r.
  - rewrite IH. unfold change_of at 2.
    destruct (areEqual _ _); [done|]. by rewrite <- app_assoc.
Qed.

Lemma diffNode_omap baseline current :
  diffNode baseline current
  = omap (change_of baseline current)
      (Set_from (obj_keys (data baseline) ++ obj_keys (data current))).
Proof. unfold diffNode. by rewrite diffNode_fold. Qed.

(** The loops of [diffSnapshots] collect [added_of], [changed_of] and
    [removed_of] over the entries. *)
Lemma diff_current_fold baseline entries acc :
  foldl (diff_current_entry baseline) acc entries
  = (acc.1 ++ omap (added_of baseline) entries,
     acc.2 ++ omap (changed_of baseline) entries).
Proof.
  revert acc. induction entries as [|entry entries IH]; intros [a c]; simpl.
  - by rewrite !app_nil_r.
  - rewrite IH. unfold diff_current_entry, added_of, changed_of. simpl.
    destruct (obj_lookup (nodes baseline) entry.1) as [previousNode|]; simpl.
    + destruct (diffNode previousNode entry.2); simpl; [done|].
      by rewrite <- app_assoc.
    + by rewrite <- app_assoc.
Qed.

Lemma diff_baseline_fold current entries acc :
  foldl (diff_baseline_entry current) acc entries
  = acc ++ omap (removed_of current) entries.
Proof.
  revert acc. induction entries as [|entry entries IH]; intros acc; simpl.
  - by rewrite app_nil_r.
  - rewrite IH. unfold diff_baseline_entry, removed_of.
    destruct (obj_lookup (nodes current) entry.1); simpl; [done|].
    by rewrite <- app_assoc.
Qed.

Lemma diffSnapshots_omap baseline current :
  diffSnapshots baseline current
  = {| added := omap (added_of baseline) (nodes current);
       removed := omap (removed_of current) (nodes baseline);
       changed := omap (changed_of baseline) (nodes current) |}.
Proof.
  unfold diffSnapshots. by rewrite diff_current_fold, diff_baseline_fold.
Qed.

Lemma omap_all_None {A B} (f : A → option B) (l : list A) :
  (∀ x, x ∈ l → f x = None) → omap f l = [].
Proof.
  induction l as [|x l IH]; intros H; simpl; [done|].
  rewrite (H x) by apply list_elem_of_here.
  apply IH. intros y Hy. apply H. by apply list_elem_of_further.
Qed.

(** ** Equal values are never reported *)

Lemma areEqual_refl value : areEqual value value = true.
Proof. unfold areEqual. by apply bool_decide_eq_true. Qed.

Lemma diffNode_same_data baseline current :
  data baseline = data current → diffNode baseline current = [].
Proof.
  intros Hdata. rewrite diffNode_omap. apply omap_all_None.
  intros key _. unfold change_of. by rewrite Hdata, areEqual_refl.
Qed.

(** Two snapshots with the same [nodes] have the empty diff. *)
Lemma diffSnapshots_same_nodes baseline current :
  nodes baseline = nodes current →
  NoDup (obj_keys (nodes current)) →
  diffSnapshots baseline current
  = {| added := []; removed := []; changed := [] |}.
Proof.
  intros Hnodes Hnd. rewrite diffSnapshots_omap, Hnodes. f_equal.
  - apply omap_all_None. intros [k n] Hin. unfold added_of. simpl.
    by rewrite Hnodes, (obj_lookup_NoDup _ k n Hnd Hin).
  - apply omap_all_None. intros [k n] Hin. unfold removed_of. simpl.
    by rewrite (obj_lookup_NoDup _ k n Hnd Hin).
  - apply omap_all_None. intros [k n] Hin. unfold changed_of. simpl.
    rewrite Hnodes, (obj_lookup_NoDup _ k n Hnd Hin).
    by rewrite diffNode_same_data.
Qed.

(** C5.  For every raw tree, the diff of its normalization against a second
    and independent normalization of the same tree, taken at any other
    moment, has empty [added], [removed] and [changed] lists. *)
Theorem diffSnapshots_idempotent (snapshot : TextSnapshot)
  (now now' : string) :
  diffSnapshots (normalizeSnapshot snapshot now)
                (normalizeSnapshot snapshot now')
  = {| added := []; removed := []; changed := [] |}.
Proof.
  apply diffSnapshots_same_nodes.
  - apply normalizeSnapshot_nodes_now.
  - apply normalizeSnapshot_wf.
Qed.

(** ** Well-formed diffs *)

(** The keys of the entries a loop keeps are a sublist of the keys it went
    through. *)
Lemma omap_keys_sublist {A B} (f : A → option B) (ka : A → string)
  (kb : B → string) (l : list A) :
  (∀ a b, a ∈ l → f a = Some b → kb b = ka a) →
  sublist (kb <$> omap f l) (ka <$> l).
Proof.
  induction l as [|a l IH]; intros Hkey; simpl; [constructor|].
  assert (sublist (kb <$> omap f l) (ka <$> l)) as Hrest.
  { apply IH. intros a' b' Hin. apply Hkey. by apply list_elem_of_further. }
  destruct (f a) as [b|] eqn:Hfa; simpl.
  - rewrite (Hkey a b (list_elem_of_here _ _) Hfa). by constructor.
  - by constructor.
Qed.

Lemma omap_keys_elem {A B} (f : A → option B) (ka : A → string)
  (kb : B → string) (l : list A) (x : string) :
  (∀ a b, a ∈ l → f a = Some b → kb b = ka a) →
  x ∈ kb <$> omap f l → ∃ a, a ∈ l ∧ is_Some (f a) ∧ ka a = x.
Proof.
  intros Hkey Hx. apply list_elem_of_fmap in Hx as (b & -> & Hb).
  apply list_elem_of_omap in Hb as (a & Ha & Hfa).
  exists a. split; [done|]. split; [by eexists|].
  symmetry. by apply Hkey.
Qed.

Lemma wf_snapshot_entry snapshot entry :
  wf_snapshot snapshot → entry ∈ nodes snapshot → id entry.2 = entry.1.
Proof. intros [_ Hid] Hin. by apply (proj1 (Forall_forall _ _) Hid). Qed.

Lemma added_of_key baseline current entry node :
  wf_snapshot current → entry ∈ nodes current →
  added_of baseline entry = Some node → id node = entry.1.
Proof.
  intros Hwf Hin. unfold added_of.
  destruct (obj_lookup _ _); [done|]. intros [= <-].
  by apply (wf_snapshot_entry current).
Qed.

Lemma removed_of_key baseline current entry node :
  wf_snapshot baseline → entry ∈ nodes baseline →
  removed_of current entry = Some node → id node = entry.1.
Proof.
  intros Hwf Hin. unfold removed_of.
  destruct (obj_lookup _ _); [done|]. intros [= <-].
  by apply (wf_snapshot_entry baseline).
Qed.

Lemma changed_of_key baseline entry change :
  changed_of baseline entry = Some change → change_id change = entry.1.
Proof.
  unfold changed_of. destruct (obj_lookup _ _) as [previousNode|]; [|done].
  destruct (diffNode _ _); [done|]. by intros [= <-].
Qed.

Lemma changed_of_changes baseline entry change :
  changed_of baseline entry = Some change → changes change ≠ [].
Proof.
  unfold changed_of. destruct (obj_lookup _ _) as [previousNode|]; [|done].
  destruct (diffNode _ _); [done|]. by intros [= <-].
Qed.

(** C10.  For every pair of normalized snapshots the diff is well formed:
    no node id occurs twice in the [added], [removed] and [changed] lists
    taken together, so each id is in at most one of them, and every
    [changed] entry carries at least one property change. *)
Theorem diffSnapshots_well_formed (baseline current : NormalizedSnapshot) :
  wf_snapshot baseline → wf_snapshot current →
  NoDup (reported_ids (diffSnapshots baseline current))
  ∧ Forall (λ change, changes change ≠ [])
      (changed (diffSnapshots baseline current)).
Proof.
  intros Hb Hc. rewrite diffSnapshots_omap. unfold reported_ids. simpl.
  pose proof (added_of_key baseline current) as Hadded.
  pose proof (removed_of_key baseline current) as Hremoved.
  pose proof (changed_of_key baseline) as Hchanged.
  split.
  - apply NoDup_app. split; [|split; [|apply NoDup_app; split; [|split]]].
    + eapply sublist_NoDup; [apply Hc|].
      apply (omap_keys_sublist _ fst). intros a b Ha. by apply Hadded.
    + intros x Hx Hx'.
      apply (omap_keys_elem _ fst) in Hx as (a & Ha & [n Hn] & <-);
        [|intros a b Ha'; by apply Hadded].
      unfold added_of in Hn.
      destruct (obj_lookup (nodes baseline) a.1) eqn:Hlook; [done|].
      apply obj_lookup_None in Hlook.
      apply elem_of_app in Hx' as [Hx'|Hx'].
      * apply (omap_keys_elem _ fst) in Hx' as (r & Hr & _ & Heq);
          [|intros a' b' Ha'; by apply Hremoved].
        apply Hlook. rewrite <- Heq. unfold obj_keys.
        apply list_elem_of_fmap. by exists r.
      * apply (omap_keys_elem _ fst) in Hx' as (r & Hr & [ch Hch] & Heq);
          [|intros a' b' _; by apply Hchanged].
        unfold changed_of in Hch. rewrite Heq in Hch.
        apply obj_lookup_None in Hlook. by rewrite Hlook in Hch.
    + eapply sublist_NoDup; [apply Hb|].
      apply (omap_keys_sublist _ fst). intros a b Ha. by apply Hremoved.
    + intros x Hx Hx'.
      apply (omap_keys_elem _ fst) in Hx as (a & Ha & [n Hn] & <-);
        [|intros a b Ha'; by apply Hremoved].
      unfold removed_of in Hn.
      destruct (obj_lookup (nodes current) a.1) eqn:Hlook; [done|].
      apply obj_lookup_None in Hlook.
      apply (omap_keys_elem _ fst) in Hx' as (r & Hr & _ & Heq);
        [|intros a' b' _; by apply Hchanged].
      apply Hlook. rewrite <- Heq. unfold obj_keys.
      apply list_elem_of_fmap. by exists r.
    + eapply sublist_NoDup; [apply Hc|].
      apply (omap_keys_sublist _ fst). intros a b _. by apply Hchanged.
  - apply Forall_forall. intros change Hin.
    apply list_elem_of_omap in Hin as (entry & _ & Hentry).
    by apply (changed_of_changes baseline entry).
Qed.

(** ** Properties on one side only *)

(** A sanitized value has a serialization. *)
Lemma sanitized_stableStringify value :
  is_sanitized value = true → is_Some (stableStringify value).
Proof. unfold stableStringify. by destruct value; simpl; eauto. Qed.

Lemma areEqual_undefined_l value :
  is_sanitized value = true → areEqual JUndefined value = false.
Proof.
  intros Hs. apply sanitized_stableStringify in Hs as [text Htext].
  unfold areEqual. apply bool_decide_eq_false. by rewrite Htext.
Qed.

Lemma areEqual_undefined_r value :
  is_sanitized value = true → areEqual value JUndefined = false.
Proof.
  intros Hs. apply sanitized_stableStringify in Hs as [text Htext].
  unfold areEqual. apply bool_decide_eq_false. by rewrite Htext.
Qed.

Lemma sanitized_data_lookup data key value :
  sanitized_data data → obj_lookup data key = Some value →
  is_sanitized value = true.
Proof.
  intros Hdata Hkey. apply obj_lookup_Some_elem in Hkey.
  by apply (proj1 (Forall_forall _ _) Hdata (key, value)).
Qed.

Lemma diffNode_elem baseline current key :
  key ∈ obj_keys (data baseline) ++ obj_keys (data current) →
  areEqual (obj_get (data baseline) key) (obj_get (data current) key)
    = false →
  {| property := key;
     before := obj_get (data baseline) key;
     after := obj_get (data current) key |} ∈ diffNode baseline current.
Proof.
  intros Hkey Hne. rewrite diffNode_omap. apply list_elem_of_omap.
  exists key. split; [by apply Set_from_elem|].
  unfold change_of. by rewrite Hne.
Qed.

(** The [changed] entry of a node that is in both snapshots and has a
    difference. *)
Lemma changed_entry baseline current nodeId previousNode currentNode detail :
  obj_lookup (nodes baseline) nodeId = Some previousNode →
  (nodeId, currentNode) ∈ nodes current →
  detail ∈ diffNode previousNode currentNode →
  ∃ change, change ∈ changed (diffSnapshots baseline current)
            ∧ change_id change = nodeId
            ∧ changes change = diffNode previousNode currentNode.
Proof.
  intros Hprev Hcur Hdetail. rewrite diffSnapshots_omap. simpl.
  destruct (diffNode previousNode currentNode) as [|d ds] eqn:Hdiff.
  { by apply elem_of_nil in Hdetail. }
  eexists. split.
  - apply list_elem_of_omap. exists (nodeId, currentNode).
    split; [done|]. unfold changed_of. simpl. by rewrite Hprev, Hdiff.
  - done.
Qed.

Lemma stableStringify_absent key :
  key ≠ "__proto__" →
  stableStringify (default JUndefined (Object_prototype key)) = None.
Proof.
  intros Hkey. unfold Object_prototype.
  rewrite decide_False by done. by repeat case_decide.
Qed.

Lemma areEqual_absent_l key value :
  key ≠ "__proto__" → is_sanitized value = true →
  areEqual (default JUndefined (Object_prototype key)) value = false.
Proof.
  intros Hkey Hs. apply sanitized_stableStringify in Hs as [text Htext].
  unfold areEqual. apply bool_decide_eq_false.
  by rewrite stableStringify_absent, Htext.
Qed.

Lemma areEqual_absent_r key value :
  key ≠ "__proto__" → is_sanitized value = true →
  areEqual value (default JUndefined (Object_prototype key)) = false.
Proof.
  intros Hkey Hs. apply sanitized_stableStringify in Hs as [text Htext].
  unfold areEqual. apply bool_decide_eq_false.
  by rewrite stableStringify_absent, Htext.
Qed.


End DiffFacts.

(** * Facts about sanitized and canonical values *)

Section CanonicalFacts.
Context {E : Engine}.

(** ** The sort *)

Lemma sort_insert_perm {V} (kv : string * V) sorted :
  sort_insert kv sorted ≡ₚ kv :: sorted.
Proof.
  induction sorted as [|kv' rest IH]; simpl; [done|].
  destruct (localeCompare kv.1 kv'.1); try done.
  rewrite IH. apply Permutation_swap.
Qed.

Lemma sort_entries_perm {V} (entries : list (string * V)) :
  sort_entries entries ≡ₚ entries.
Proof.
  unfold sort_entries. induction entries as [|kv rest IH]; simpl; [done|].
  by rewrite sort_insert_perm, IH.
Qed.

Lemma sort_insert_sorted {V} (kv : string * V) sorted :
  consistent_collation →
  StronglySorted collation_le sorted →
  StronglySorted collation_le (sort_insert kv sorted).
Proof.
  intros [Hflip Htrans] Hsorted.
  induction Hsorted as [|kv' rest Hrest IH Hall]; simpl.
  - repeat constructor.
  - destruct (localeCompare kv.1 kv'.1) eqn:Hcmp.
    + constructor; [by constructor|]. constructor.
      * unfold collation_le. by rewrite Hcmp.
      * eapply Forall_impl; [apply Hall|]. intros x Hx.
        unfold collation_le in *. apply (Htrans _ kv'.1); [|done].
        by rewrite Hcmp.
    + constructor; [by constructor|]. constructor.
      * unfold collation_le. by rewrite Hcmp.
      * eapply Forall_impl; [apply Hall|]. intros x Hx.
        unfold collation_le in *. apply (Htrans _ kv'.1); [|done].
        by rewrite Hcmp.
    + constructor; [done|].
      rewrite sort_insert_perm. constructor; [|done].
      unfold collation_le. by rewrite Hflip, Hcmp.
Qed.

Lemma sort_entries_sorted {V} (entries : list (string * V)) :
  consistent_collation →
  StronglySorted collation_le (sort_entries entries).
Proof.
  intros Hc. unfold sort_entries.
  induction entries as [|kv rest IH]; simpl; [constructor|].
  by apply sort_insert_sorted.
Qed.

(** Entries in another insertion order sort to the same list, when the
    collation tells their keys apart. *)
Lemma sort_entries_reordered {V} (entries entries' : list (string * V)) :
  consistent_collation →
  entries ≡ₚ entries' →
  NoDup (obj_keys entries) →
  collation_separates (obj_keys entries) →
  sort_entries entries = sort_entries entries'.
Proof.
  intros Hc Hperm Hnd Hsep.
  apply (StronglySorted_unique_strong collation_le).
  - intros x1 x2 Hx1 Hx2 H12 H21.
    rewrite sort_entries_perm in Hx1.
    rewrite sort_entries_perm, <- Hperm in Hx2.
    assert (x1.1 = x2.1) as Hkey.
    { apply Hsep.
      - apply list_elem_of_fmap. by exists x1.
      - apply list_elem_of_fmap. by exists x2.
      - unfold collation_le in *. destruct Hc as [Hflip _].
        rewrite (Hflip x1.1 x2.1) in H21.
        by destruct (localeCompare x1.1 x2.1). }
    destruct x1 as [k1 v1], x2 as [k2 v2]. simpl in Hkey. subst k2.
    pose proof (obj_lookup_NoDup _ _ _ Hnd Hx1) as H1.
    pose proof (obj_lookup_NoDup _ _ _ Hnd Hx2) as H2.
    congruence.
  - by apply sort_entries_sorted.
  - by apply sort_entries_sorted.
  - by rewrite !sort_entries_perm.
Qed.

(** ** [sanitizeValue] and key order *)

Lemma sanitizeValue_reordered entries entries' :
  consistent_collation →
  entries ≡ₚ entries' →
  NoDup (obj_keys entries) →
  collation_separates (obj_keys entries) →
  sanitizeValue (JObject entries) = sanitizeValue (JObject entries').
Proof.
  intros Hc Hperm Hnd Hsep. cbn [sanitizeValue]. do 2 f_equal.
  assert (obj_keys (map (λ kv, (kv.1, sanitizeValue kv.2)) entries)
          = obj_keys entries) as Hkeys.
  { unfold obj_keys. clear. induction entries as [|kv l IH]; simpl; [done|].
    by f_equal. }
  apply sort_entries_reordered; try done.
  - by apply Permutation_map.
  - by rewrite Hkeys.
  - by rewrite Hkeys.
Qed.

(** ** What [sanitizeValue] returns *)

Lemma sanitizeValue_sanitized value :
  is_sanitized (sanitizeValue value) = true.
Proof.
  induction value as [| |b|n|s|items IH|entries IH|text] using JsValue_ind;
    try done.
  - cbn [sanitizeValue is_sanitized]. apply forallb_forall.
    intros x Hx. apply in_map_iff in Hx as (raw & <- & Hraw).
    apply (proj1 (Forall_forall _ _) IH raw). by apply list_elem_of_In.
  - cbn [sanitizeValue is_sanitized]. apply forallb_forall.
    intros kv Hkv. apply list_elem_of_In in Hkv.
    apply obj_fold_set_elem in Hkv as [Hkv|Hkv];
      [by apply elem_of_nil in Hkv|].
    rewrite sort_entries_perm in Hkv.
    apply list_elem_of_In, in_map_iff in Hkv as (raw & <- & Hraw).
    apply (proj1 (Forall_forall _ _) IH raw). by apply list_elem_of_In.
Qed.

Lemma sanitizeNodeData_sanitized node :
  sanitized_data (sanitizeNodeData node).
Proof.
  unfold sanitizeNodeData, sanitized_data.
  generalize (node_attributes node) as attributes.
  assert (Forall (λ kv : string * JsValue, is_sanitized kv.2 = true) [])
    as Hnil by constructor.
  revert Hnil. generalize (@nil (string * JsValue)) as acc.
  intros acc Hacc attributes. revert acc Hacc.
  induction attributes as [|[k v] rest IH]; intros acc Hacc; simpl; [done|].
  apply IH. destruct (_ || _); [done|].
  assert (Forall (λ kv : string * JsValue, is_sanitized kv.2 = true)
            (obj_set acc k (sanitizeValue v))) as Hset.
  { apply Forall_forall. intros entry Hin.
    destruct (obj_set_elem _ _ _ _ Hin) as [Hin'| ->].
    - by apply (proj1 (Forall_forall _ _) Hacc).
    - apply sanitizeValue_sanitized. }
  by destruct v.
Qed.

(** Every node of a normalized snapshot holds sanitized data. *)
Lemma visits_sanitized node :
  ∀ pathSegments parentId,
    Forall (λ entry, sanitized_data (data entry.2))
      (visits node pathSegments parentId).
Proof.
  induction node as [attributes children IH] using TextSnapshotNode_ind.
  intros pathSegments parentId. cbn [visits].
  constructor; [apply sanitizeNodeData_sanitized|].
  set (normalized := normalizeNode _ _ _). clearbody normalized.
  generalize 0 as index.
  induction IH as [|child rest Hchild _ IHrest]; intros index.
  - constructor.
  - cbn [concat_indexed]. apply Forall_app; split; [apply Hchild|apply IHrest].
Qed.

Lemma normalizeSnapshot_sanitized snapshot now :
  Forall (λ entry, sanitized_data (data entry.2))
    (nodes (normalizeSnapshot snapshot now)).
Proof.
  rewrite normalizeSnapshot_visits. apply Forall_forall. intros entry Hin.
  apply obj_fold_set_elem in Hin as [Hin|Hin]; [by apply elem_of_nil in Hin|].
  by apply (proj1 (Forall_forall _ _)
              (visits_sanitized (root snapshot) ["0"] None)).
Qed.

End CanonicalFacts.

(** * Facts about trees that differ in one place *)

Section TreeFacts.
Context {E : Engine}.

Lemma concat_indexed_app {A B} (f : A → nat → list B) (l1 l2 : list A)
  (index : nat) :
  concat_indexed f (l1 ++ l2) index
  = concat_indexed f l1 index ++ concat_indexed f l2 (length l1 + index).
Proof.
  revert index. induction l1 as [|x l1 IH]; intros index; simpl; [done|].
  rewrite IH, <- app_assoc. do 3 f_equal. lia.
Qed.

(** The normalized node of a raw node does not depend on its children. *)
Lemma normalizeNode_children attributes children children' pathSegments
  parentId :
  normalizeNode (SnapshotNode attributes children) pathSegments parentId
  = normalizeNode (SnapshotNode attributes children') pathSegments parentId.
Proof. done. Qed.

(** The visits of a tree, with one child singled out. *)
Lemma visits_child attributes before child after pathSegments parentId :
  visits (SnapshotNode attributes (before ++ child :: after)) pathSegments
    parentId
  = let normalized :=
      normalizeNode (SnapshotNode attributes []) pathSegments parentId in
    let under (child : TextSnapshotNode) (index : nat) :=
      visits child (pathSegments ++ [String_nat index])
        (Some (id normalized)) in
    (id normalized, normalized) ::
    concat_indexed under before 0
    ++ under child (length before)
    ++ concat_indexed under after (S (length before)).
Proof.
  cbn [visits]. rewrite concat_indexed_app. cbn [concat_indexed].
  by rewrite Nat.add_0_r.
Qed.

(** ** Key order *)

Lemma obj_lookup_reordered before key entries entries' after key' :
  obj_lookup (before ++ (key, JObject entries) :: after) key'
  = obj_lookup (before ++ (key, JObject entries') :: after) key'
  ∨ (obj_lookup (before ++ (key, JObject entries) :: after) key'
     = Some (JObject entries)
     ∧ obj_lookup (before ++ (key, JObject entries') :: after) key'
       = Some (JObject entries')).
Proof.
  induction before as [|[k v] before IH]; simpl.
  - destruct (String.eqb key key'); [by right | by left].
  - destruct (String.eqb k key'); [by left | done].
Qed.

Lemma getStableNodeId_reordered before key entries entries' after children
  children' path :
  getStableNodeId
    (SnapshotNode (before ++ (key, JObject entries) :: after) children) path
  = getStableNodeId
      (SnapshotNode (before ++ (key, JObject entries') :: after) children')
      path.
Proof.
  unfold getStableNodeId, obj_get. cbn [node_attributes].
  destruct (obj_lookup_reordered before key entries entries' after
              "backendDOMNodeId") as [->|[-> ->]];
  destruct (obj_lookup_reordered before key entries entries' after
              "nodeId") as [->|[-> ->]];
  destruct (obj_lookup_reordered before key entries entries' after
              "axId") as [->|[-> ->]]; done.
Qed.

Lemma sanitizeNodeData_reordered before key entries entries' after children
  children' :
  consistent_collation →
  entries ≡ₚ entries' →
  NoDup (obj_keys entries) →
  collation_separates (obj_keys entries) →
  sanitizeNodeData
    (SnapshotNode (before ++ (key, JObject entries) :: after) children)
  = sanitizeNodeData
      (SnapshotNode (before ++ (key, JObject entries') :: after) children').
Proof.
  intros Hc Hperm Hnd Hsep. unfold sanitizeNodeData. cbn [node_attributes].
  rewrite !foldl_app. cbn [foldl fst snd].
  by rewrite (sanitizeValue_reordered entries entries').
Qed.

Lemma normalizeNode_reordered before key entries entries' after children
  children' pathSegments parentId :
  consistent_collation →
  entries ≡ₚ entries' →
  NoDup (obj_keys entries) →
  collation_separates (obj_keys entries) →
  normalizeNode
    (SnapshotNode (before ++ (key, JObject entries) :: after) children)
    pathSegments parentId
  = normalizeNode
      (SnapshotNode (before ++ (key, JObject entries') :: after) children')
      pathSegments parentId.
Proof.
  intros Hc Hperm Hnd Hsep. unfold normalizeNode.
  rewrite (getStableNodeId_reordered before key entries entries' after
             children children').
  by rewrite (sanitizeNodeData_reordered before key entries entries' after
                children children').
Qed.

Lemma visits_reordered entries entries' node node' :
  consistent_collation →
  collation_separates (obj_keys entries) →
  reordered_keys entries entries' node node' →
  ∀ pathSegments parentId,
    visits node pathSegments parentId = visits node' pathSegments parentId.
Proof.
  intros Hc Hsep Hre.
  induction Hre as [before key after children Hperm Hnd
                   |attributes before child child' after _ IH];
    intros pathSegments parentId.
  - cbn [visits].
    by rewrite (normalizeNode_reordered before key entries entries' after
                  children children).
  - rewrite !visits_child. cbv beta zeta. by rewrite IH.
Qed.


(** ** Nodes without identity hints *)

Lemma getStableNodeId_no_hint node path :
  has_hint node = false → getStableNodeId node path = "path:" +:+ path.
Proof.
  unfold has_hint, getStableNodeId.
  destruct (obj_get (node_attributes node) "backendDOMNodeId");
    destruct (obj_get (node_attributes node) "nodeId");
    destruct (obj_get (node_attributes node) "axId"); done.
Qed.

Lemma normalizeNode_id node pathSegments parentId :
  id (normalizeNode node pathSegments parentId)
  = getStableNodeId node (join "." pathSegments).
Proof. done. Qed.

End TreeFacts.

(** * Facts about paths *)

Section PathFacts.
Context {E : Engine}.

(** ** Decimal segments *)

Lemma to_uint_not_Nil n : Nat.to_uint n ≠ Decimal.Nil.
Proof.
  rewrite <- (DecimalNat.Unsigned.of_to n) at 1.
  rewrite DecimalNat.Unsigned.to_of. unfold Decimal.unorm.
  by destruct (Decimal.nzhead _).
Qed.

Lemma String_nat_inj n m : String_nat n = String_nat m → n = m.
Proof.
  unfold String_nat. intros Heq.
  apply DecimalNat.Unsigned.to_uint_inj.
  pose proof (NilZero.usu _ (to_uint_not_Nil n)) as Hn.
  pose proof (NilZero.usu _ (to_uint_not_Nil m)) as Hm.
  rewrite Heq in Hn. congruence.
Qed.

Lemma string_of_uint_no_dot d : no_dot (NilEmpty.string_of_uint d) = true.
Proof. induction d; simpl; done. Qed.

Lemma String_nat_segment n : is_segment (String_nat n).
Proof.
  unfold String_nat, NilZero.string_of_uint. split.
  - pose proof (to_uint_not_Nil n). by destruct (Nat.to_uint n).
  - destruct (Nat.to_uint n) eqn:Hd; try apply string_of_uint_no_dot. done.
Qed.

(** ** Joining segments with dots *)

Lemma no_dot_cons c rest :
  no_dot (String c rest) = true → c ≠ "."%char ∧ no_dot rest = true.
Proof.
  simpl. intros [Hc Hrest]%andb_true_iff. split; [|done].
  intros ->. by rewrite Ascii.eqb_refl in Hc.
Qed.

Lemma append_dot_inj x y r1 r2 :
  no_dot x = true → no_dot y = true →
  x +:+ String "." r1 = y +:+ String "." r2 → x = y ∧ r1 = r2.
Proof.
  revert y. induction x as [|a x IH]; intros [|c y] Hx Hy; simpl.
  - by intros [= ->].
  - intros [= <- _]. by apply no_dot_cons in Hy as [? _].
  - intros [= -> _]. by apply no_dot_cons in Hx as [? _].
  - intros [= -> Hrest].
    apply no_dot_cons in Hx as [_ Hx]. apply no_dot_cons in Hy as [_ Hy].
    destruct (IH y Hx Hy Hrest) as [-> ->]. done.
Qed.

Lemma no_dot_not_append_dot x y r :
  no_dot x = true → x ≠ y +:+ String "." r.
Proof.
  revert x. induction y as [|c y IH]; intros [|a x] Hx; simpl; try done.
  - intros [= -> _]. by apply no_dot_cons in Hx as [? _].
  - intros [= _ Hrest]. apply no_dot_cons in Hx as [_ Hx]. by apply (IH x).
Qed.

Lemma join_cons_cons x y l :
  join "." (x :: y :: l) = x +:+ String "." (join "." (y :: l)).
Proof. done. Qed.

Lemma join_segments_not_empty x l :
  x ≠ EmptyString → join "." (x :: l) ≠ EmptyString.
Proof.
  intros Hx. destruct l as [|y l]; [done|]. rewrite join_cons_cons.
  by destruct x.
Qed.

(** Joining is injective on lists of segments. *)
Lemma join_inj l1 l2 :
  Forall is_segment l1 → Forall is_segment l2 →
  join "." l1 = join "." l2 → l1 = l2.
Proof.
  revert l2. induction l1 as [|x l1 IH]; intros [|y l2] H1 H2 Heq; try done.
  - apply Forall_cons in H2 as [[Hy _] _]. symmetry in Heq.
    by apply join_segments_not_empty in Heq.
  - apply Forall_cons in H1 as [[Hx _] _].
    by apply join_segments_not_empty in Heq.
  - apply Forall_cons in H1 as [[_ Hx] H1].
    apply Forall_cons in H2 as [[_ Hy] H2].
    destruct l1 as [|x' l1], l2 as [|y' l2].
    + simpl in Heq. by subst.
    + rewrite join_cons_cons in Heq. simpl in Heq.
      by apply no_dot_not_append_dot in Heq.
    + rewrite join_cons_cons in Heq. simpl in Heq. symmetry in Heq.
      by apply no_dot_not_append_dot in Heq.
    + rewrite !join_cons_cons in Heq.
      apply append_dot_inj in Heq as [-> Hrest]; [|done|done].
      f_equal. by apply IH.
Qed.

(** ** The paths of a tree *)

(** The path of every visit is the path of the root followed by the place
    of the node. *)
Lemma visits_paths node :
  ∀ pathSegments parentId,
    path <$> (visits node pathSegments parentId).*2
    = (λ place, join "." (pathSegments ++ (String_nat <$> place)))
      <$> positions node.
Proof.
  induction node as [attributes children IH] using TextSnapshotNode_ind.
  intros pathSegments parentId. cbn [visits positions].
  rewrite !fmap_cons. cbn [snd path normalizeNode fmap list_fmap].
  rewrite app_nil_r. f_equal.
  set (normalized := id _). clearbody normalized.
  generalize 0 as index.
  induction IH as [|child rest Hchild _ IHrest]; intros index; [done|].
  cbn [concat_indexed]. rewrite !fmap_app. f_equal; [|apply IHrest].
  rewrite Hchild, <- list_fmap_compose. apply list_fmap_ext.
  intros _ place _. cbn. by rewrite <- app_assoc.
Qed.

Lemma positions_children_NoDup children :
  Forall (λ child, NoDup (positions child)) children →
  ∀ index,
    NoDup (concat_indexed (λ child index, cons index <$> positions child)
             children index)
    ∧ ∀ place : list nat,
        place ∈ concat_indexed
                  (λ child index, cons index <$> positions child)
                  children index →
        ∃ (i : nat) rest, place = i :: rest ∧ (index ≤ i)%nat.
Proof.
  induction 1 as [|child rest Hchild _ IH]; intros index.
  - split; [constructor|]. intros place Hin. by apply elem_of_nil in Hin.
  - cbn [concat_indexed]. destruct (IH (S index)) as [Hnd Hheads]. split.
    + apply NoDup_app. split; [|split; [|done]].
      * apply NoDup_fmap_2; [|done]. by intros x y [= ->].
      * intros place Hin Hin'.
        apply list_elem_of_fmap in Hin as (tail & -> & _).
        destruct (Hheads _ Hin') as (i & tail' & [= <- _] & Hle). lia.
    + intros place [Hin|Hin]%elem_of_app.
      * apply list_elem_of_fmap in Hin as (tail & -> & _). by exists index, tail.
      * destruct (Hheads _ Hin) as (i & tail & -> & Hle).
        exists i, tail. split; [done|lia].
Qed.

(** No two raw nodes have the same place. *)
Lemma positions_NoDup node : NoDup (positions node).
Proof.
  induction node as [attributes children IH] using TextSnapshotNode_ind.
  cbn [positions].
  destruct (positions_children_NoDup children IH 0) as [Hnd Hheads].
  apply NoDup_cons. split; [|done].
  intros Hin. by destruct (Hheads _ Hin) as (i & rest & ? & _).
Qed.

(** No two raw nodes have the same path. *)
Lemma visits_paths_NoDup node pathSegments parentId :
  Forall is_segment pathSegments →
  NoDup (path <$> (visits node pathSegments parentId).*2).
Proof.
  intros Hsegments. rewrite visits_paths.
  apply NoDup_fmap_2_strong; [|apply positions_NoDup].
  intros place place' _ _ Heq.
  apply join_inj in Heq.
  - apply app_inv_head in Heq.
    revert Heq. apply list_fmap_eq_inj. intros n m. apply String_nat_inj.
  - apply Forall_app. split; [done|].
    apply Forall_fmap, Forall_forall. intros n _. apply String_nat_segment.
  - apply Forall_app. split; [done|].
    apply Forall_fmap, Forall_forall. intros n _. apply String_nat_segment.
Qed.

(** ** Ids that are paths *)

(** In a tree without identity hints every id is the path behind the
    prefix. *)
Lemma hint_free_visits node :
  hint_free node = true →
  ∀ pathSegments parentId,
    (visits node pathSegments parentId).*1
    = (λ p, "path:" +:+ p)
      <$> (path <$> (visits node pathSegments parentId).*2).
Proof.
  induction node as [attributes children IH] using TextSnapshotNode_ind.
  cbn [hint_free]. intros [Hhint Hchildren]%andb_true_iff.
  apply negb_true_iff in Hhint.
  intros pathSegments parentId. cbn [visits]. rewrite !fmap_cons.
  cbn [fst snd]. f_equal.
  { by rewrite normalizeNode_id, getStableNodeId_no_hint. }
  set (normalized := id _). clearbody normalized.
  generalize 0 as index.
  induction IH as [|child rest Hchild _ IHrest]; intros index; [done|].
  cbn [forallb] in Hchildren.
  apply andb_true_iff in Hchildren as [Hc Hrest].
  cbn [concat_indexed]. rewrite !fmap_app. f_equal.
  - by apply Hchild.
  - by apply IHrest.
Qed.

Lemma root_segment : Forall is_segment ["0"].
Proof. by repeat constructor. Qed.

(** The nodes of a tree without identity hints resolve to pairwise distinct
    ids. *)
Lemma hint_free_stable_ids_NoDup snapshot :
  hint_free (root snapshot) = true → NoDup (stable_ids snapshot).
Proof.
  intros Hfree. unfold stable_ids. rewrite hint_free_visits by done.
  apply NoDup_fmap_2; [by intros p q [=]|].
  apply visits_paths_NoDup, root_segment.
Qed.

End PathFacts.

(** * Facts about reads and differences *)

Section SwapFacts.
Context {E : Engine}.

(** ** Reading an object built by writes *)

Lemma obj_lookup_app {V} (o o' : list (string * V)) key :
  obj_lookup (o ++ o') key
  = match obj_lookup o key with
    | Some value => Some value
    | None => obj_lookup o' key
    end.
Proof.
  induction o as [|[k v] o IH]; simpl; [done|].
  by destruct (String.eqb k key).
Qed.

(** A read finds the last write of the key. *)
Lemma obj_fold_lookup {V} (writes o : list (string * V)) key :
  obj_lookup (foldl (λ o kv, obj_set o kv.1 kv.2) o writes) key
  = match obj_lookup (reverse writes) key with
    | Some value => Some value
    | None => obj_lookup o key
    end.
Proof.
  revert o. induction writes as [|[k v] ws IH]; intros o; simpl; [done|].
  rewrite IH, reverse_cons, obj_lookup_app, obj_lookup_set.
  destruct (obj_lookup (reverse ws) key); [done|]. simpl.
  destruct (String.eqb_spec k key); by case_decide.
Qed.

Lemma obj_fold_lookup_only {V} (writes o : list (string * V)) key value :
  (key, value) ∈ writes →
  (∀ value', (key, value') ∈ writes → value' = value) →
  obj_lookup (foldl (λ o kv, obj_set o kv.1 kv.2) o writes) key
  = Some value.
Proof.
  intros Hin Honly. rewrite obj_fold_lookup.
  destruct (obj_lookup (reverse writes) key) as [value'|] eqn:Hlook.
  - apply obj_lookup_Some_elem in Hlook. rewrite elem_of_reverse in Hlook.
    by rewrite (Honly _ Hlook).
  - apply obj_lookup_None in Hlook. exfalso. apply Hlook.
    apply list_elem_of_fmap. exists (key, value).
    split; [done|]. by apply elem_of_reverse.
Qed.

(** ** Ids that are paths *)

Lemma getStableNodeId_path_inv node p q :
  getStableNodeId node p = "path:" +:+ q → p = q.
Proof.
  unfold getStableNodeId.
  destruct (obj_get (node_attributes node) "backendDOMNodeId");
    destruct (obj_get (node_attributes node) "nodeId");
    destruct (obj_get (node_attributes node) "axId");
    simpl; by intros [=].
Qed.

(** A visit whose id is a path is the visit of the node at that path. *)
Lemma visits_path_ids node :
  ∀ pathSegments parentId,
    Forall (λ entry, ∀ q, entry.1 = "path:" +:+ q → path entry.2 = q)
      (visits node pathSegments parentId).
Proof.
  induction node as [attributes children IH] using TextSnapshotNode_ind.
  intros pathSegments parentId. cbn [visits].
  constructor.
  { intros q. cbn [fst snd]. rewrite normalizeNode_id.
    apply getStableNodeId_path_inv. }
  set (normalized := normalizeNode _ _ _). clearbody normalized.
  generalize 0 as index.
  induction IH as [|child rest Hchild _ IHrest]; intros index.
  - constructor.
  - cbn [concat_indexed]. apply Forall_app; split; [apply Hchild|apply IHrest].
Qed.

Lemma NoDup_fmap_elem_inj {A B} (f : A → B) (l : list A) x y :
  NoDup (f <$> l) → x ∈ l → y ∈ l → f x = f y → x = y.
Proof.
  induction l as [|z l IH]; intros Hnd Hx Hy Heq.
  - by apply elem_of_nil in Hx.
  - rewrite fmap_cons in Hnd. apply NoDup_cons in Hnd as [Hz Hnd].
    apply elem_of_cons in Hx as [->|Hx]; apply elem_of_cons in Hy as [->|Hy].
    + done.
    + exfalso. apply Hz. rewrite Heq. by apply list_elem_of_fmap_2.
    + exfalso. apply Hz. rewrite <- Heq. by apply list_elem_of_fmap_2.
    + by apply IH.
Qed.

(** ** What the diff reports *)

Lemma areEqual_sym x y : areEqual x y = areEqual y x.
Proof.
  unfold areEqual. apply bool_decide_ext. split; by intros ->.
Qed.

Lemma data_differ_sym a b : data_differ a b → data_differ b a.
Proof. intros [key Hkey]. exists key. by rewrite areEqual_sym. Qed.

Lemma obj_get_absent (o : list (string * JsValue)) key :
  key ∉ obj_keys o → obj_get o key = default JUndefined (Object_prototype key).
Proof. intros Hkey. unfold obj_get. by apply obj_lookup_None in Hkey as ->. Qed.

(** [diffNode] finds a difference exactly when some property differs. *)
Lemma diffNode_not_nil n n' :
  diffNode n n' ≠ []
  ↔ ∃ key, areEqual (obj_get (data n) key) (obj_get (data n') key) = false.
Proof.
  split.
  - rewrite diffNode_omap.
    destruct (omap _ _) as [|detail rest] eqn:Hdiff; [done|]. intros _.
    assert (detail ∈ omap (change_of n n')
              (Set_from (obj_keys (data n) ++ obj_keys (data n')))) as Hin.
    { rewrite Hdiff. apply list_elem_of_here. }
    apply list_elem_of_omap in Hin as (key & _ & Hkey).
    exists key. unfold change_of in Hkey. by destruct (areEqual _ _).
  - intros [key Hkey].
    destruct (decide (key ∈ obj_keys (data n) ++ obj_keys (data n')))
      as [Hin|Hin].
    + pose proof (diffNode_elem n n' key Hin Hkey) as Helem.
      intros Hnil. rewrite Hnil in Helem. by apply elem_of_nil in Helem.
    + rewrite elem_of_app in Hin.
      rewrite !obj_get_absent, areEqual_refl in Hkey by tauto. done.
Qed.

End SwapFacts.

(** * Facts about one node and about the node count *)

Section NodeFacts.
Context {E : Engine}.

(** ** What [data] holds *)

(** The loop of [sanitizeNodeData], started from any [data]. *)
Lemma sanitizeNodeData_fold_lookup attributes (acc : list (string * JsValue))
  key :
  NoDup (obj_keys attributes) →
  obj_lookup
    (foldl (λ data kv,
              if String.eqb kv.1 "children" || String.eqb kv.1 "id" then data
              else match kv.2 with
                   | JUndefined => data
                   | value => obj_set data kv.1 (sanitizeValue value)
                   end) acc attributes) key
  = match (if String.eqb key "children" || String.eqb key "id" then None
           else match obj_lookup attributes key with
                | Some JUndefined | None => None
                | Some value => Some (sanitizeValue value)
                end) with
    | Some value => Some value
    | None => obj_lookup acc key
    end.
Proof.
  unfold obj_keys. revert acc.
  induction attributes as [|[k v] rest IH]; intros acc Hnd.
  - simpl. by destruct (_ || _).
  - apply NoDup_cons in Hnd as [Hk Hnd]. cbn [foldl fst snd].
    rewrite (IH _ Hnd). cbn [obj_lookup].
    destruct (String.eqb_spec k key) as [->|Hne].
    + assert (obj_lookup rest key = None) as ->
        by by apply obj_lookup_None.
      destruct (_ || _); [done|].
      destruct v; try done; by rewrite obj_lookup_set, decide_True.
    + destruct (String.eqb key "children" || String.eqb key "id") eqn:Hex.
      * destruct (String.eqb k "children" || String.eqb k "id"); [done|].
        destruct v; try done; by rewrite obj_lookup_set, decide_False.
      * destruct (obj_lookup rest key) as [[]|]; try done;
          destruct (String.eqb k "children" || String.eqb k "id"); try done;
          destruct v; try done; by rewrite obj_lookup_set, decide_False.
Qed.

(** C2, as the code has it.  For a raw node that has no own property named
    [__proto__] (the assignment [data[key] = ...] under that key would go
    to the prototype accessor and not create a property), the [data] of the
    normalized node holds the sanitized value of every attribute of the raw
    node whose value is not [undefined], except [children] and the field
    named [id], and nothing else.  The identity hints [backendDOMNodeId],
    [nodeId] and [axId] are attributes like any other. *)
Theorem normalized_data_lookup (node : TextSnapshotNode)
  (pathSegments : list string) (parentId : option string) (key : string) :
  NoDup (obj_keys (node_attributes node)) →
  "__proto__" ∉ obj_keys (node_attributes node) →
  obj_lookup (data (normalizeNode node pathSegments parentId)) key
  = if String.eqb key "children" || String.eqb key "id" then None
    else match obj_lookup (node_attributes node) key with
         | Some JUndefined | None => None
         | Some value => Some (sanitizeValue value)
         end.
Proof.
  intros Hnd _. cbn [normalizeNode data]. unfold sanitizeNodeData.
  rewrite sanitizeNodeData_fold_lookup by done.
  by destruct (if _ : bool then _ else _).
Qed.

(** ** One normalized node per raw node *)

Lemma array_index_not_digit c rest :
  (∀ d, uint_of_char c (Some d) = None) →
  array_index (String c rest) = None.
Proof.
  intros Hc. unfold array_index, NilZero.uint_of_string.
  cbn [NilEmpty.uint_of_string].
  destruct (NilEmpty.uint_of_string rest) as [d|]; [by rewrite Hc|done].
Qed.

(** No id [getStableNodeId] returns is an array index. *)
Lemma getStableNodeId_not_index node path :
  array_index (getStableNodeId node path) = None.
Proof.
  unfold getStableNodeId.
  destruct (obj_get (node_attributes node) "backendDOMNodeId");
    destruct (obj_get (node_attributes node) "nodeId");
    destruct (obj_get (node_attributes node) "axId");
    by apply array_index_not_digit.
Qed.

Lemma visits_not_index node :
  ∀ pathSegments parentId,
    Forall (λ entry, array_index entry.1 = None)
      (visits node pathSegments parentId).
Proof.
  induction node as [attributes children IH] using TextSnapshotNode_ind.
  intros pathSegments parentId. cbn [visits].
  constructor; [apply getStableNodeId_not_index|].
  set (normalized := normalizeNode _ _ _). clearbody normalized.
  generalize 0 as index.
  induction IH as [|child rest Hchild _ IHrest]; intros index.
  - constructor.
  - cbn [concat_indexed]. apply Forall_app; split; [apply Hchild|apply IHrest].
Qed.

(** Writes of distinct fresh keys that are no array indices append. *)
Lemma obj_fold_set_fresh {V} (writes o : list (string * V)) :
  NoDup (obj_keys o ++ writes.*1) →
  Forall (λ entry, array_index entry.1 = None) writes →
  foldl (λ o kv, obj_set o kv.1 kv.2) o writes = o ++ writes.
Proof.
  revert o. induction writes as [|[k v] ws IH]; intros o Hnd Hidx; simpl.
  - by rewrite app_nil_r.
  - apply Forall_cons in Hidx as [Hk Hidx]. simpl in *.
    apply NoDup_app in Hnd as (Ho & Hdisj & Hws).
    apply NoDup_cons in Hws as [Hkws Hws].
    assert (k ∉ obj_keys o) as Hko.
    { intros Hin. apply (Hdisj k Hin). apply list_elem_of_here. }
    rewrite obj_set_fresh_append by done.
    rewrite IH; [by rewrite <- app_assoc| |done].
    unfold obj_keys. rewrite fmap_app. simpl.
    apply NoDup_app. split; [|split; [|done]].
    + apply NoDup_app. split; [done|]. split; [|apply NoDup_singleton].
      intros x Hx Hx'. apply list_elem_of_singleton in Hx'. by subst.
    + intros x Hx Hx'. apply elem_of_app in Hx as [Hx|Hx].
      * apply (Hdisj x Hx). by apply list_elem_of_further.
      * apply list_elem_of_singleton in Hx. by subst.
Qed.

Lemma own_id_ids (entries : list (string * NormalizedAXNode)) :
  Forall (λ entry, id entry.2 = entry.1) entries →
  id <$> entries.*2 = entries.*1.
Proof.
  induction 1 as [|entry rest Hentry _ IH]; [done|].
  rewrite !fmap_cons. by f_equal.
Qed.

(** C4, as the code has it.  In every normalized snapshot the nodes have
    pairwise distinct ids.  When the raw nodes of the capture resolve to
    pairwise distinct ids, as they do whenever no node carries an identity
    hint, the [nodes] are exactly the normalized nodes of the raw nodes, in
    pre-order: one entry per raw node, and as many entries as raw nodes. *)
Theorem one_normalized_node_per_raw_node (snapshot : TextSnapshot)
  (now : string) :
  NoDup (id <$> (nodes (normalizeSnapshot snapshot now)).*2)
  ∧ (NoDup (stable_ids snapshot) →
     nodes (normalizeSnapshot snapshot now)
     = visits (root snapshot) ["0"] None
     ∧ length (nodes (normalizeSnapshot snapshot now))
       = node_count (root snapshot))
  ∧ (hint_free (root snapshot) = true → NoDup (stable_ids snapshot)).
Proof.
  split; [|split].
  - destruct (normalizeSnapshot_wf snapshot now) as [Hnd Hown].
    by rewrite own_id_ids.
  - intros Hnd.
    assert (nodes (normalizeSnapshot snapshot now)
            = visits (root snapshot) ["0"] None) as Hnodes.
    { rewrite normalizeSnapshot_visits.
      by rewrite obj_fold_set_fresh; [|done|apply visits_not_index]. }
    rewrite Hnodes. split; [done|apply visits_length].
  - apply hint_free_stable_ids_NoDup.
Qed.

End NodeFacts.

(** * Facts about the handler *)

Section HandlerFacts.
Context {E : Engine}.

Lemma hasSnapshotChanges_empty :
  hasSnapshotChanges {| added := []; removed := []; changed := [] |}
  = false.
Proof. done. Qed.

(** C8.  When nothing could be captured, the handler appends the one line
    that says so and returns the baseline store as it received it. *)
Theorem capture_failure_keeps_store (params : Params) (now : string)
  (response : list string) (store : gmap string NormalizedSnapshot) :
  takeChangeSnapshot params None now response store
  = (response ++
       ["Unable to capture accessibility snapshot for the current page."],
     store).
Proof. done. Qed.

(** C9, as the code has it.  When the compare key has no stored baseline,
    the handler stores the normalized capture under the baseline key and
    appends the one line that reports the creation, and nothing about
    added, removed or changed nodes.  The store gains one entry when the
    baseline key had none; an entry already under the baseline key is
    overwritten, and the store keeps its size. *)
Theorem missing_baseline_is_created (params : Params)
  (snapshot : TextSnapshot) (now : string) (response : list string)
  (store : gmap string NormalizedSnapshot) :
  let key := trimmed_or (baselineKey params) "default" in
  let compareKey := trimmed_or (compareTo params) key in
  let result := takeChangeSnapshot params (Some snapshot) now response store in
  store !! compareKey = None →
  result
  = (response ++
       ["No baseline found for key " +:+ dquote +:+ compareKey +:+ dquote
          +:+ ". Created a baseline with the current snapshot."],
     <[key := normalizeSnapshot snapshot now]> store)
  ∧ (store !! key = None → size result.2 = S (size store))
  ∧ (is_Some (store !! key) → size result.2 = size store).
Proof.
  intros key compareKey result Hnone.
  assert (result
          = (response ++
               ["No baseline found for key " +:+ dquote +:+ compareKey
                  +:+ dquote
                  +:+ ". Created a baseline with the current snapshot."],
             <[key := normalizeSnapshot snapshot now]> store)) as Hresult.
  { unfold result, takeChangeSnapshot, getAccessibilityBaseline.
    fold key. fold compareKey. by rewrite Hnone. }
  rewrite Hresult. split; [done|]. cbn [snd]. split.
  - intros Hkey. by apply map_size_insert_None.
  - intros Hsome. by apply map_size_insert_Some.
Qed.

(** C3, as the code has it.  Two calls in a row on one baseline key, with
    the same raw capture, against a stored baseline that holds the nodes of
    that capture and with replacement not opted out: in each call the diff
    has no changes, the call appends the one line that reports so, and it
    stores the normalization of the capture under the key.  The stored
    snapshot keeps its [nodes] from call to call; its [capturedAt] is the
    clock reading of the latest call. *)
Theorem repeated_capture_reports_no_change (params : Params)
  (snapshot : TextSnapshot) (now1 now2 : string) (response : list string)
  (store : gmap string NormalizedSnapshot) (stored : NormalizedSnapshot) :
  let key := trimmed_or (baselineKey params) "default" in
  let line := "No accessibility changes compared to baseline " +:+ dquote
                +:+ key +:+ dquote +:+ "." in
  let first := takeChangeSnapshot params (Some snapshot) now1 response store in
  let second :=
    takeChangeSnapshot params (Some snapshot) now2 first.1 first.2 in
  trimmed_or (compareTo params) key = key →
  replaceBaseline params ≠ Some false →
  store !! key = Some stored →
  nodes stored = nodes (normalizeSnapshot snapshot now1) →
  hasSnapshotChanges
    (diffSnapshots stored (normalizeSnapshot snapshot now1)) = false
  ∧ first = (response ++ [line],
             <[key := normalizeSnapshot snapshot now1]> store)
  ∧ (∃ kept, first.2 !! key = Some kept ∧ nodes kept = nodes stored
             ∧ capturedAt kept = now1
             ∧ hasSnapshotChanges
                 (diffSnapshots kept (normalizeSnapshot snapshot now2))
               = false)
  ∧ second = (response ++ [line] ++ [line],
              <[key := normalizeSnapshot snapshot now2]> store)
  ∧ (∃ kept, second.2 !! key = Some kept ∧ nodes kept = nodes stored
             ∧ capturedAt kept = now2).
Proof.
  intros key line first second Hcompare Hreplace Hstored Hnodes.
  assert (default true (replaceBaseline params) = true) as Hrep.
  { destruct (replaceBaseline params) as [[]|]; done. }
  assert (∀ now stored',
            nodes stored' = nodes (normalizeSnapshot snapshot now) →
            hasSnapshotChanges
              (diffSnapshots stored' (normalizeSnapshot snapshot now))
            = false) as Hquiet.
  { intros now stored' Hn.
    by rewrite (diffSnapshots_same_nodes stored'
                  (normalizeSnapshot snapshot now))
      by (try done; apply normalizeSnapshot_wf). }
  assert (∀ now response' (store' : gmap string NormalizedSnapshot) stored',
            store' !! key = Some stored' →
            nodes stored' = nodes (normalizeSnapshot snapshot now) →
            takeChangeSnapshot params (Some snapshot) now response' store'
            = (response' ++ [line],
               <[key := normalizeSnapshot snapshot now]> store')) as Hcall.
  { intros now response' store' stored' Hs Hn.
    unfold takeChangeSnapshot, getAccessibilityBaseline.
    fold key. rewrite Hcompare, Hs, Hrep. by rewrite (Hquiet now stored'). }
  assert (first = (response ++ [line],
                   <[key := normalizeSnapshot snapshot now1]> store))
    as Hfirst by by apply (Hcall now1 response store stored).
  assert (second = (response ++ [line] ++ [line],
                    <[key := normalizeSnapshot snapshot now2]> store))
    as Hsecond.
  { unfold second. rewrite Hfirst. cbn [fst snd].
    rewrite (Hcall now2 _ _ (normalizeSnapshot snapshot now1));
      [|apply lookup_insert_eq|done].
    by rewrite insert_insert_eq, <- app_assoc. }
  rewrite Hfirst, Hsecond. cbn [fst snd].
  split; [by apply Hquiet|]. split; [done|]. split; [|split; [done|]].
  - exists (normalizeSnapshot snapshot now1).
    rewrite lookup_insert_eq, Hnodes. split; [done|]. split; [done|].
    split; [done|]. by apply Hquiet.
  - exists (normalizeSnapshot snapshot now2).
    by rewrite lookup_insert_eq, Hnodes.
Qed.

End HandlerFacts.

(** * Ids and the members of [Object.prototype] *)

Section OwnIds.
Context {E : Engine}.

Lemma Object_prototype_None key :
  key ∉ "__proto__" :: "constructor" :: Object_prototype_methods →
  Object_prototype key = None.
Proof.
  intros Hkey. unfold Object_prototype.
  rewrite !not_elem_of_cons in Hkey. destruct Hkey as (? & ? & ?).
  by rewrite !decide_False.
Qed.

(** No member of [Object.prototype] has a name that begins like an id. *)
Lemma prefixed_not_inherited (key : string) :
  id_prefixed key = true → Object_prototype key = None.
Proof.
  intros Hkey. apply Object_prototype_None. intros Hin.
  repeat (apply elem_of_cons in Hin as [-> |Hin]; [discriminate Hkey|]).
  by apply elem_of_nil in Hin.
Qed.

Lemma getStableNodeId_prefixed node p :
  id_prefixed (getStableNodeId node p) = true.
Proof.
  unfold getStableNodeId.
  destruct (obj_get (node_attributes node) "backendDOMNodeId");
    destruct (obj_get (node_attributes node) "nodeId");
    destruct (obj_get (node_attributes node) "axId"); reflexivity.
Qed.

Lemma visits_own_ids node :
  ∀ pathSegments parentId,
    Forall (λ entry, Object_prototype entry.1 = None)
      (visits node pathSegments parentId).
Proof.
  induction node as [attributes children IH] using TextSnapshotNode_ind.
  intros pathSegments parentId. cbn [visits].
  constructor.
  { cbn [fst]. rewrite normalizeNode_id.
    apply prefixed_not_inherited, getStableNodeId_prefixed. }
  set (normalized := normalizeNode _ _ _). clearbody normalized.
  generalize 0 as index.
  induction IH as [|child rest Hchild _ IHrest]; intros index.
  - constructor.
  - cbn [concat_indexed]. apply Forall_app; split; [apply Hchild|apply IHrest].
Qed.

(** Every normalized snapshot has ids that [Object.prototype] has no member
    for. *)
Lemma normalizeSnapshot_own_ids snapshot now :
  own_ids (normalizeSnapshot snapshot now).
Proof.
  unfold own_ids. apply Forall_forall. intros key Hkey.
  apply list_elem_of_fmap in Hkey as ([k n] & -> & Hin).
  rewrite normalizeSnapshot_visits in Hin.
  apply obj_fold_set_elem in Hin as [Hin|Hin]; [by apply elem_of_nil in Hin|].
  by apply (proj1 (Forall_forall _ _)
              (visits_own_ids (root snapshot) ["0"] None) (k, n)).
Qed.

End OwnIds.

(** * More about the diff *)

Section DiffLists.
Context {E : Engine}.

Lemma omap_nil_iff {A B} (f : A → option B) (l : list A) :
  omap f l = [] ↔ ∀ x, x ∈ l → f x = None.
Proof.
  split; [|apply omap_all_None].
  intros Hnil x Hx. destruct (f x) as [y|] eqn:Hfx; [|done].
  assert (y ∈ omap f l) as Hy by (apply list_elem_of_omap; by exists x).
  rewrite Hnil in Hy. by apply elem_of_nil in Hy.
Qed.

Lemma Set_fold_NoDup keys s : NoDup s → NoDup (foldl Set_add s keys).
Proof.
  revert s. induction keys as [|k keys IH]; intros s Hs; simpl; [done|].
  apply IH. unfold Set_add. case_decide as Hin; [done|].
  apply NoDup_app. split; [done|]. split; [|apply NoDup_singleton].
  intros x Hx Hx'. apply list_elem_of_singleton in Hx'. by subst.
Qed.

Lemma diffNode_elem_iff baseline current detail :
  detail ∈ diffNode baseline current
  ↔ (property detail ∈ obj_keys (data baseline)
     ∨ property detail ∈ obj_keys (data current))
    ∧ areEqual (obj_get (data baseline) (property detail))
               (obj_get (data current) (property detail)) = false
    ∧ before detail = obj_get (data baseline) (property detail)
    ∧ after detail = obj_get (data current) (property detail).
Proof.
  rewrite diffNode_omap, list_elem_of_omap. split.
  - intros (key & Hkey & Hchange). unfold change_of in Hchange.
    destruct (areEqual _ _) eqn:Heq; [done|].
    injection Hchange as <-. cbn [property before after].
    apply Set_from_elem, elem_of_app in Hkey. done.
  - intros (Hkey & Heq & Hbefore & Hafter). exists (property detail).
    split; [by apply Set_from_elem, elem_of_app|].
    unfold change_of. rewrite Heq. f_equal.
    destruct detail as [p b a]. cbn in *. by subst.
Qed.


(** X5.  Exchanging the two nodes exchanges [before] and [after]: a
    difference is reported one way round exactly when the mirrored
    difference is reported the other way round. *)
Theorem diffNode_mirrored (baseline current : NormalizedAXNode)
  (detail : NodeChangeDetail) :
  detail ∈ diffNode baseline current
  ↔ {| property := property detail;
       before := after detail;
       after := before detail |} ∈ diffNode current baseline.
Proof.
  rewrite !diffNode_elem_iff. cbn [property before after].
  rewrite (areEqual_sym (obj_get (data current) (property detail))).
  tauto.
Qed.

(** ** The three lists *)

Lemma added_elem_iff baseline current node :
  node ∈ omap (added_of baseline) (nodes current)
  ↔ ∃ key, (key, node) ∈ nodes current
           ∧ obj_lookup (nodes baseline) key = None.
Proof.
  rewrite list_elem_of_omap. split.
  - intros ([k n] & Hin & Hadded). unfold added_of in Hadded.
    cbn [fst snd] in Hadded.
    destruct (obj_lookup (nodes baseline) k) eqn:Hlook; [done|].
    injection Hadded as <-. by exists k.
  - intros (key & Hin & Hlook). exists (key, node). split; [done|].
    unfold added_of. cbn [fst snd]. by rewrite Hlook.
Qed.

(** X2.  For snapshots whose ids are not names of members of
    [Object.prototype], the added nodes are exactly the nodes of the current
    snapshot whose key the baseline lacks, the removed nodes exactly the
    nodes of the baseline whose key the current snapshot lacks; so what one
    direction reports as added the other direction reports as removed. *)
Theorem added_and_removed_nodes (baseline current : NormalizedSnapshot) :
  own_ids baseline → own_ids current →
  (∀ node,
     node ∈ added (diffSnapshots baseline current)
     ↔ ∃ key, (key, node) ∈ nodes current
              ∧ obj_lookup (nodes baseline) key = None)
  ∧ (∀ node,
       node ∈ removed (diffSnapshots baseline current)
       ↔ ∃ key, (key, node) ∈ nodes baseline
                ∧ obj_lookup (nodes current) key = None)
  ∧ added (diffSnapshots baseline current)
    = removed (diffSnapshots current baseline).
Proof.
  intros _ _. rewrite !diffSnapshots_omap. cbn [added removed].
  split; [|split; [|done]].
  - intros node. apply added_elem_iff.
  - intros node. apply (added_elem_iff current baseline).
Qed.

(** X3.  The changed entries are exactly those of the keys both snapshots
    have and whose two nodes [diffNode] tells apart; the entry carries the
    key, the path of the current node, the role and the name of the current
    node or else of the baseline node, and the differences. *)
Theorem changed_entries (baseline current : NormalizedSnapshot)
  (change : NodeChange) :
  change ∈ changed (diffSnapshots baseline current)
  ↔ ∃ key previousNode currentNode,
      (key, currentNode) ∈ nodes current
      ∧ obj_lookup (nodes baseline) key = Some previousNode
      ∧ diffNode previousNode currentNode ≠ []
      ∧ change = {| change_id := key;
                    change_path := path currentNode;
                    change_role :=
                      nullish_or (role currentNode) (role previousNode);
                    change_name :=
                      nullish_or (name currentNode) (name previousNode);
                    changes := diffNode previousNode currentNode |}.
Proof.
  rewrite diffSnapshots_omap. cbn [changed].
  rewrite list_elem_of_omap. split.
  - intros ([k n] & Hin & Hchanged). unfold changed_of in Hchanged.
    cbn [fst snd] in Hchanged.
    destruct (obj_lookup (nodes baseline) k) as [prev|] eqn:Hlook; [|done].
    exists k, prev, n.
    destruct (diffNode prev n) as [|d ds] eqn:Hdiff; [done|].
    injection Hchanged as <-. done.
  - intros (key & prev & cur & Hin & Hlook & Hdiff & ->).
    exists (key, cur). split; [done|]. unfold changed_of. cbn [fst snd].
    rewrite Hlook. by destruct (diffNode prev cur).
Qed.

(** X6.  For a snapshot whose ids are not names of members of
    [Object.prototype]: against a baseline without nodes every node of the
    snapshot is added and nothing else is reported; against a current
    snapshot without nodes every node of it is removed. *)
Theorem diff_with_empty_side (snapshot : NormalizedSnapshot)
  (capturedAt' : string) :
  own_ids snapshot →
  diffSnapshots {| capturedAt := capturedAt'; nodes := [] |} snapshot
  = {| added := (nodes snapshot).*2; removed := []; changed := [] |}
  ∧ diffSnapshots snapshot {| capturedAt := capturedAt'; nodes := [] |}
    = {| added := []; removed := (nodes snapshot).*2; changed := [] |}.
Proof.
  intros _. rewrite !diffSnapshots_omap. cbn [nodes omap list_omap].
  assert (∀ l : list (string * NormalizedAXNode),
            omap (added_of {| capturedAt := capturedAt'; nodes := [] |}) l
            = l.*2) as Hall.
  { induction l as [|[k n] l IH]; [done|].
    cbn [omap list_omap added_of nodes obj_lookup fst snd].
    rewrite fmap_cons. by f_equal. }
  split.
  - rewrite Hall. f_equal. by apply omap_all_None.
  - by f_equal.
Qed.

(** ** When a diff has no changes *)

Lemma hasSnapshotChanges_false diff :
  hasSnapshotChanges diff = false
  ↔ added diff = [] ∧ removed diff = [] ∧ changed diff = [].
Proof.
  unfold hasSnapshotChanges.
  destruct (added diff), (removed diff), (changed diff); cbn;
    split; try done; intros (? & ? & ?); done.
Qed.

Lemma added_nil_iff baseline current :
  omap (added_of baseline) (nodes current) = []
  ↔ ∀ key, key ∈ obj_keys (nodes current) → key ∈ obj_keys (nodes baseline).
Proof.
  rewrite omap_nil_iff. split.
  - intros Hnone key Hkey.
    apply list_elem_of_fmap in Hkey as ([k n] & -> & Hin).
    specialize (Hnone _ Hin). unfold added_of in Hnone.
    cbn [fst snd] in *. apply obj_lookup_is_Some.
    by destruct (obj_lookup (nodes baseline) k).
  - intros Hsub [k n] Hin. unfold added_of. cbn [fst snd].
    assert (is_Some (obj_lookup (nodes baseline) k)) as [old ->]; [|done].
    apply obj_lookup_is_Some, Hsub, list_elem_of_fmap. by exists (k, n).
Qed.

Lemma changed_nil_iff baseline current :
  NoDup (obj_keys (nodes current)) →
  omap (changed_of baseline) (nodes current) = []
  ↔ ∀ key previousNode currentNode,
      obj_lookup (nodes baseline) key = Some previousNode →
      obj_lookup (nodes current) key = Some currentNode →
      diffNode previousNode currentNode = [].
Proof.
  intros Hnd. rewrite omap_nil_iff. split.
  - intros Hnone key prev cur Hprev Hcur.
    apply obj_lookup_Some_elem in Hcur. specialize (Hnone _ Hcur).
    unfold changed_of in Hnone. cbn [fst snd] in Hnone.
    rewrite Hprev in Hnone. by destruct (diffNode prev cur).
  - intros Hsame [k n] Hin. unfold changed_of. cbn [fst snd].
    destruct (obj_lookup (nodes baseline) k) as [prev|] eqn:Hprev; [|done].
    by rewrite (Hsame k prev n Hprev (obj_lookup_NoDup _ _ _ Hnd Hin)).
Qed.

Lemma diffNode_nil_iff n n' :
  diffNode n n' = []
  ↔ ∀ key, areEqual (obj_get (data n) key) (obj_get (data n') key) = true.
Proof.
  split.
  - intros Hnil key.
    destruct (areEqual _ _) eqn:Heq; [done|]. exfalso.
    by apply (proj2 (diffNode_not_nil n n')); [exists key|].
  - intros Hall. destruct (diffNode n n') eqn:Hdiff; [done|]. exfalso.
    assert (diffNode n n' ≠ []) as Hne by by rewrite Hdiff.
    apply diffNode_not_nil in Hne as [key Hkey]. by rewrite Hall in Hkey.
Qed.

Lemma no_changes_iff baseline current :
  NoDup (obj_keys (nodes current)) →
  hasSnapshotChanges (diffSnapshots baseline current) = false
  ↔ (∀ key, key ∈ obj_keys (nodes baseline)
            ↔ key ∈ obj_keys (nodes current))
    ∧ (∀ key previousNode currentNode,
         obj_lookup (nodes baseline) key = Some previousNode →
         obj_lookup (nodes current) key = Some currentNode →
         ∀ property,
           areEqual (obj_get (data previousNode) property)
                    (obj_get (data currentNode) property) = true).
Proof.
  intros Hnd. rewrite hasSnapshotChanges_false, diffSnapshots_omap.
  cbn [added removed changed].
  rewrite added_nil_iff, (added_nil_iff current baseline),
    (changed_nil_iff _ _ Hnd).
  split.
  - intros (Hcb & Hbc & Hsame). split; [split; auto|].
    intros key prev cur Hprev Hcur. by apply diffNode_nil_iff, (Hsame key).
  - intros (Hkeys & Hsame). split; [apply Hkeys|]. split; [apply Hkeys|].
    intros key prev cur Hprev Hcur. apply diffNode_nil_iff.
    by apply (Hsame key).
Qed.

(** X1.  For snapshots whose ids are not names of members of
    [Object.prototype], a diff has no changes exactly when the two snapshots
    have the same keys and, key by key, [areEqual] finds every property of
    the two nodes equal.  The path, the role, the name and the parent of a
    node, the order of the nodes and the capture time play no part. *)
Theorem diff_has_no_changes_iff (baseline current : NormalizedSnapshot) :
  NoDup (obj_keys (nodes current)) →
  own_ids baseline → own_ids current →
  hasSnapshotChanges (diffSnapshots baseline current) = false
  ↔ (∀ key, key ∈ obj_keys (nodes baseline)
            ↔ key ∈ obj_keys (nodes current))
    ∧ (∀ key previousNode currentNode,
         obj_lookup (nodes baseline) key = Some previousNode →
         obj_lookup (nodes current) key = Some currentNode →
         ∀ property,
           areEqual (obj_get (data previousNode) property)
                    (obj_get (data currentNode) property) = true).
Proof. intros Hnd _ _. by apply no_changes_iff. Qed.

(** X7.  Whether a diff has changes does not depend on which of the two
    snapshots is taken as the baseline. *)
Theorem changes_either_way (baseline current : NormalizedSnapshot) :
  NoDup (obj_keys (nodes baseline)) →
  NoDup (obj_keys (nodes current)) →
  hasSnapshotChanges (diffSnapshots baseline current)
  = hasSnapshotChanges (diffSnapshots current baseline).
Proof.
  intros Hb Hc.
  assert (∀ b c : NormalizedSnapshot,
            NoDup (obj_keys (nodes b)) → NoDup (obj_keys (nodes c)) →
            hasSnapshotChanges (diffSnapshots b c) = false →
            hasSnapshotChanges (diffSnapshots c b) = false) as Hflip.
  { intros b c Hndb Hndc Hquiet.
    apply (no_changes_iff b c Hndc) in Hquiet as [Hkeys Hsame].
    apply (no_changes_iff c b Hndb). split; [intros key; by rewrite Hkeys|].
    intros key prev cur Hprev Hcur property.
    rewrite areEqual_sym. by apply (Hsame key cur prev). }
  destruct (hasSnapshotChanges (diffSnapshots baseline current)) eqn:Hbc,
    (hasSnapshotChanges (diffSnapshots current baseline)) eqn:Hcb;
    try done.
  - by rewrite (Hflip current baseline Hc Hb Hcb) in Hbc.
  - by rewrite (Hflip baseline current Hb Hc Hbc) in Hcb.
Qed.

End DiffLists.

(** * More about canonical values *)

Section CanonicalMore.
Context {E : Engine}.

Lemma obj_lookup_fmap_values {V W} (f : V → W) (o : list (string * V)) key :
  obj_lookup (map (λ kv, (kv.1, f kv.2)) o) key = f <$> obj_lookup o key.
Proof.
  induction o as [|[k v] o IH]; simpl; [done|].
  by destruct (String.eqb k key).
Qed.

Lemma obj_keys_fmap_values {V W} (f : V → W) (o : list (string * V)) :
  obj_keys (map (λ kv, (kv.1, f kv.2)) o) = obj_keys o.
Proof.
  unfold obj_keys. induction o as [|kv o IH]; simpl; [done|]. by f_equal.
Qed.

(** With distinct keys, a read does not depend on the order of the
    entries. *)
Lemma obj_lookup_perm {V} (o o' : list (string * V)) key :
  NoDup (obj_keys o) → o ≡ₚ o' → obj_lookup o key = obj_lookup o' key.
Proof.
  intros Hnd Hperm.
  assert (NoDup (obj_keys o')) as Hnd'.
  { unfold obj_keys in *. by rewrite <- Hperm. }
  destruct (obj_lookup o key) as [v|] eqn:Hlook.
  - apply obj_lookup_Some_elem in Hlook. rewrite Hperm in Hlook.
    symmetry. by apply obj_lookup_NoDup.
  - symmetry. apply obj_lookup_None. apply obj_lookup_None in Hlook.
    unfold obj_keys in *. by rewrite <- Hperm.
Qed.

Lemma Object_fromEntries_lookup {V} (entries : list (string * V)) key :
  NoDup (obj_keys entries) →
  obj_lookup (Object_fromEntries entries) key = obj_lookup entries key.
Proof.
  intros Hnd. unfold Object_fromEntries. rewrite obj_fold_lookup.
  rewrite <- (obj_lookup_perm entries (reverse entries) key Hnd)
    by (symmetry; apply reverse_Permutation).
  by destruct (obj_lookup entries key).
Qed.

(** X8.  Sanitizing an object keeps every property and sanitizes its
    value: the result is an object with distinct keys in which each key of
    the input reads the sanitized value, and no other key reads
    anything. *)
Theorem sanitizeValue_object_properties
  (entries : list (string * JsValue)) :
  NoDup (obj_keys entries) →
  ∃ sanitized,
    sanitizeValue (JObject entries) = JObject sanitized
    ∧ NoDup (obj_keys sanitized)
    ∧ ∀ key, obj_lookup sanitized key
             = sanitizeValue <$> obj_lookup entries key.
Proof.
  intros Hnd.
  exists (Object_fromEntries (sort_entries
            (map (λ kv, (kv.1, sanitizeValue kv.2)) entries))).
  split; [done|].
  assert (NoDup (obj_keys (sort_entries
            (map (λ kv, (kv.1, sanitizeValue kv.2)) entries)))) as Hsorted.
  { unfold obj_keys. rewrite sort_entries_perm.
    fold (obj_keys (map (λ kv, (kv.1, sanitizeValue kv.2)) entries)).
    by rewrite obj_keys_fmap_values. }
  split.
  - apply obj_fold_set_NoDup, NoDup_nil_2.
  - intros key. rewrite Object_fromEntries_lookup by done.
    rewrite (obj_lookup_perm _
               (map (λ kv, (kv.1, sanitizeValue kv.2)) entries) key Hsorted)
      by apply sort_entries_perm.
    apply obj_lookup_fmap_values.
Qed.


Lemma toComparable_reordered entries entries' :
  consistent_collation →
  entries ≡ₚ entries' →
  NoDup (obj_keys entries) →
  collation_separates (obj_keys entries) →
  toComparable (JObject entries) = toComparable (JObject entries').
Proof.
  intros Hc Hperm Hnd Hsep. cbn [toComparable]. do 2 f_equal.
  apply sort_entries_reordered; try done.
  - by apply Permutation_map.
  - by rewrite obj_keys_fmap_values.
  - by rewrite obj_keys_fmap_values.
Qed.

(** X10.  [areEqual] does not see the insertion order of the keys of an
    object: two objects with the same properties in another order are
    equal, for a collation that is a consistent comparator and tells the
    keys apart. *)
Theorem areEqual_ignores_key_order
  (entries entries' : list (string * JsValue)) :
  consistent_collation →
  collation_separates (obj_keys entries) →
  NoDup (obj_keys entries) →
  entries ≡ₚ entries' →
  areEqual (JObject entries) (JObject entries') = true.
Proof.
  intros Hc Hsep Hnd Hperm. unfold areEqual, stableStringify.
  apply bool_decide_eq_true.
  by rewrite (toComparable_reordered entries entries').
Qed.

(** X11.  [areEqual] does not tell a number that is not finite from
    [null]: both serialize to the text [null], so a property that goes from
    one to the other is not reported. *)
Theorem areEqual_non_finite_is_null (n : number) :
  Number_isFinite n = false →
  areEqual (JNumber n) JNull = true.
Proof.
  intros Hn. unfold areEqual, stableStringify. cbn. by rewrite Hn.
Qed.

End CanonicalMore.

(** * More about ids, paths and parents *)

Section NodeMore.
Context {E : Engine}.

(** X12.  The id of a node that carries an identity hint does not depend
    on where the node is and is never a path id; the id of a node without
    hint is its path behind the prefix, so two places give it two ids. *)
Theorem stable_id_and_path (node : TextSnapshotNode) (p q : string) :
  (has_hint node = true →
   getStableNodeId node p = getStableNodeId node q
   ∧ getStableNodeId node p ≠ "path:" +:+ q)
  ∧ (has_hint node = false →
     getStableNodeId node p = "path:" +:+ p
     ∧ (getStableNodeId node p = getStableNodeId node q ↔ p = q)).
Proof.
  split.
  - unfold has_hint, getStableNodeId.
    destruct (obj_get (node_attributes node) "backendDOMNodeId");
      destruct (obj_get (node_attributes node) "nodeId");
      destruct (obj_get (node_attributes node) "axId"); done.
  - intros Hfree. rewrite !getStableNodeId_no_hint by done.
    split; [done|]. split; [by intros [=] | by intros ->].
Qed.

(** ** Sanitized node data *)

Lemma sanitizeNodeData_fold_keys attributes
  (acc : list (string * JsValue)) key :
  key ∈ obj_keys
          (foldl (λ data kv,
                    if String.eqb kv.1 "children" || String.eqb kv.1 "id"
                    then data
                    else match kv.2 with
                         | JUndefined => data
                         | value => obj_set data kv.1 (sanitizeValue value)
                         end) acc attributes) →
  key ∈ obj_keys acc
  ∨ (key ∈ obj_keys attributes ∧ key ≠ "children" ∧ key ≠ "id").
Proof.
  revert acc. induction attributes as [|[k v] rest IH]; intros acc;
    cbn [foldl fst snd]; [by left|].
  intros Hin. apply IH in Hin as [Hin|(Hrest & Hc & Hi)].
  - destruct (String.eqb_spec k "children") as [-> |Hc]; [by left|].
    destruct (String.eqb_spec k "id") as [-> |Hi]; cbn [orb] in Hin;
      [by left|].
    assert (key ∈ obj_keys acc ∨ key = k) as [?| ->].
    { destruct v; try (by left);
        apply obj_lookup_is_Some in Hin;
        rewrite obj_lookup_set in Hin;
        (case_decide; [by right|left; by apply obj_lookup_is_Some]). }
    + by left.
    + right. split; [apply list_elem_of_here|done].
  - right. split; [by apply list_elem_of_further|done].
Qed.

Lemma sanitizeNodeData_fold_NoDup attributes
  (acc : list (string * JsValue)) :
  NoDup (obj_keys acc) →
  NoDup (obj_keys
           (foldl (λ data kv,
                     if String.eqb kv.1 "children" || String.eqb kv.1 "id"
                     then data
                     else match kv.2 with
                          | JUndefined => data
                          | value => obj_set data kv.1 (sanitizeValue value)
                          end) acc attributes)).
Proof.
  revert acc. induction attributes as [|[k v] rest IH]; intros acc Hnd;
    cbn [foldl fst snd]; [done|].
  apply IH. destruct (_ || _); [done|].
  destruct v; try done; by apply obj_set_NoDup.
Qed.

(** X13.  The [data] of a normalized node is an object with distinct keys,
    each a key of the raw node other than [children] and [id], and holds
    sanitized values only. *)
Theorem sanitizeNodeData_invariant (node : TextSnapshotNode) :
  NoDup (obj_keys (sanitizeNodeData node))
  ∧ (∀ key, key ∈ obj_keys (sanitizeNodeData node) →
            key ∈ obj_keys (node_attributes node)
            ∧ key ≠ "children" ∧ key ≠ "id")
  ∧ sanitized_data (sanitizeNodeData node).
Proof.
  split; [|split].
  - apply sanitizeNodeData_fold_NoDup, NoDup_nil_2.
  - intros key Hin.
    apply sanitizeNodeData_fold_keys in Hin as [Hin|Hin]; [|done].
    by apply elem_of_nil in Hin.
  - apply sanitizeNodeData_sanitized.
Qed.

(** ** The keys of a normalized snapshot *)

Lemma obj_fold_set_keys {V} (writes o : list (string * V)) key :
  key ∈ obj_keys (foldl (λ o kv, obj_set o kv.1 kv.2) o writes)
  ↔ key ∈ obj_keys o ∨ key ∈ writes.*1.
Proof.
  rewrite <- !obj_lookup_is_Some, obj_fold_lookup.
  rewrite <- (elem_of_reverse key (writes.*1)), <- fmap_reverse.
  fold (obj_keys (reverse writes)). rewrite <- obj_lookup_is_Some.
  destruct (obj_lookup (reverse writes) key) as [v|].
  - split; [right|]; by eexists.
  - split; [by left|]. intros [?|[? ?]]; done.
Qed.

Lemma normalized_keys snapshot now key :
  key ∈ obj_keys (nodes (normalizeSnapshot snapshot now))
  ↔ key ∈ stable_ids snapshot.
Proof.
  rewrite normalizeSnapshot_visits, obj_fold_set_keys.
  unfold stable_ids, obj_keys. rewrite elem_of_nil. tauto.
Qed.

Lemma remove_dups_length_le {A} `{EqDecision A} (l : list A) :
  (length (remove_dups l) ≤ length l)%nat.
Proof.
  induction l as [|x l IH]; simpl; [done|].
  case_decide; simpl; lia.
Qed.

Lemma remove_dups_length_iff {A} `{EqDecision A} (l : list A) :
  length (remove_dups l) = length l ↔ NoDup l.
Proof.
  induction l as [|x l IH]; simpl.
  - split; [constructor|done].
  - pose proof (remove_dups_length_le l). rewrite NoDup_cons.
    case_decide as Hin; simpl.
    + split; [lia|]. by intros [? _].
    + rewrite <- IH. split; [intros [=]; done|intros [_ ->]; done].
Qed.

(** X14.  A normalized snapshot has one node for each distinct id among
    the raw nodes: at least one node, at most as many as the raw tree has,
    and as many exactly when the raw nodes resolve to pairwise distinct
    ids. *)
Theorem normalized_node_count (snapshot : TextSnapshot) (now : string) :
  length (nodes (normalizeSnapshot snapshot now))
  = length (remove_dups (stable_ids snapshot))
  ∧ (1 ≤ length (nodes (normalizeSnapshot snapshot now)))%nat
  ∧ (length (nodes (normalizeSnapshot snapshot now))
     ≤ node_count (root snapshot))%nat
  ∧ (length (nodes (normalizeSnapshot snapshot now))
     = node_count (root snapshot)
     ↔ NoDup (stable_ids snapshot)).
Proof.
  assert (length (stable_ids snapshot) = node_count (root snapshot))
    as Hcount.
  { unfold stable_ids. rewrite length_fmap. apply visits_length. }
  assert (length (nodes (normalizeSnapshot snapshot now))
          = length (remove_dups (stable_ids snapshot))) as Hlen.
  { rewrite <- (length_fmap fst (nodes _)).
    apply Permutation_length, NoDup_Permutation.
    - apply normalizeSnapshot_wf.
    - apply NoDup_remove_dups.
    - intros key. rewrite elem_of_remove_dups. apply normalized_keys. }
  rewrite Hlen, <- Hcount.
  split; [done|]. split; [|split].
  - assert (∃ key, key ∈ remove_dups (stable_ids snapshot)) as [key Hkey].
    { unfold stable_ids. destruct (root snapshot) as [attributes children].
      cbn [visits]. rewrite fmap_cons. eexists.
      apply elem_of_remove_dups, list_elem_of_here. }
    destruct (remove_dups (stable_ids snapshot)); simpl; [|lia].
    by apply elem_of_nil in Hkey.
  - apply remove_dups_length_le.
  - apply remove_dups_length_iff.
Qed.

(** ** Paths and parents *)

Lemma visits_parents node :
  ∀ pathSegments parent,
    Forall (λ entry,
              (parentId entry.2 = parent
               ∧ path entry.2 = join "." pathSegments)
              ∨ ∃ p, parentId entry.2 = Some p
                     ∧ p ∈ (visits node pathSegments parent).*1)
      (visits node pathSegments parent).
Proof.
  induction node as [attributes children IH] using TextSnapshotNode_ind.
  intros pathSegments parent. cbn [visits].
  set (normalized := normalizeNode _ _ _).
  constructor; [by left|].
  assert (∀ index,
            Forall (λ entry,
                      ∃ p, parentId entry.2 = Some p
                           ∧ (p = id normalized
                              ∨ p ∈ (concat_indexed
                                       (λ child index,
                                          visits child
                                            (pathSegments
                                               ++ [String_nat index])
                                            (Some (id normalized)))
                                       children index).*1))
              (concat_indexed
                 (λ child index,
                    visits child (pathSegments ++ [String_nat index])
                      (Some (id normalized)))
                 children index)) as Hchildren.
  { clearbody normalized.
    induction IH as [|child rest Hchild _ IHrest]; intros index;
      [constructor|].
    cbn [concat_indexed]. apply Forall_app. split.
    - eapply Forall_impl; [apply Hchild|]. intros entry.
      intros [[Hp _]|(p & Hp & Hin)].
      + exists (id normalized). split; [done|by left].
      + exists p. split; [done|]. right. rewrite fmap_app.
        apply elem_of_app. by left.
    - eapply Forall_impl; [apply IHrest|]. intros entry (p & Hp & Hin).
      exists p. split; [done|]. destruct Hin as [-> |Hin]; [by left|].
      right. rewrite fmap_app. apply elem_of_app. by right. }
  eapply Forall_impl; [apply (Hchildren 0)|]. intros entry (p & Hp & Hin).
  right. exists p. split; [done|]. rewrite fmap_cons.
  destruct Hin as [-> |Hin]; [apply list_elem_of_here|].
  by apply list_elem_of_further.
Qed.

(** X15.  In a normalized snapshot no two nodes have the same path; every
    path is [0] followed by the child indices of a place of the raw tree;
    and the parent of every node is a key of the snapshot, except for the
    node at path [0], which has none. *)
Theorem normalized_paths_and_parents (snapshot : TextSnapshot)
  (now : string) :
  NoDup (path <$> (nodes (normalizeSnapshot snapshot now)).*2)
  ∧ ∀ entry,
      entry ∈ nodes (normalizeSnapshot snapshot now) →
      (∃ place, place ∈ positions (root snapshot)
                ∧ path entry.2 = join "." ("0" :: (String_nat <$> place)))
      ∧ match parentId entry.2 with
        | Some p => p ∈ obj_keys (nodes (normalizeSnapshot snapshot now))
        | None => path entry.2 = "0"
        end.
Proof.
  assert (∀ entry, entry ∈ nodes (normalizeSnapshot snapshot now) →
                   entry ∈ visits (root snapshot) ["0"] None) as Hvisit.
  { intros entry Hin. rewrite normalizeSnapshot_visits in Hin.
    apply obj_fold_set_elem in Hin as [Hin|Hin]; [|done].
    by apply elem_of_nil in Hin. }
  pose proof (visits_paths_NoDup (root snapshot) ["0"] None root_segment)
    as Hpaths.
  rewrite <- list_fmap_compose in Hpaths.
  split.
  - rewrite <- list_fmap_compose. apply NoDup_fmap_2_strong.
    + intros x y Hx Hy Heq.
      apply (NoDup_fmap_elem_inj _ _ _ _ Hpaths); auto.
    + eapply NoDup_fmap_1. apply (normalizeSnapshot_wf snapshot now).
  - intros entry Hin. apply Hvisit in Hin. split.
    + assert (path entry.2
              ∈ path <$> (visits (root snapshot) ["0"] None).*2) as Hp.
      { rewrite <- list_fmap_compose. by apply (list_elem_of_fmap_2 (path ∘ snd)). }
      rewrite visits_paths in Hp.
      apply list_elem_of_fmap in Hp as (place & -> & Hplace).
      by exists place.
    + pose proof (proj1 (Forall_forall _ _)
                    (visits_parents (root snapshot) ["0"] None) _ Hin)
        as [[-> ->] |(p & -> & Hp)]; [done|].
      by apply normalized_keys.
Qed.

End NodeMore.

(** * Exchanged siblings *)

Section SiblingFacts.
Context {E : Engine}.

(** ** Places *)

Lemma elem_of_concat_indexed {A B} (f : A → nat → list B) (l : list A)
  (index : nat) (x : B) :
  x ∈ concat_indexed f l index
  ↔ ∃ (i : nat) item, l !! i = Some item ∧ x ∈ f item (index + i)%nat.
Proof.
  revert index. induction l as [|item l IH]; intros index.
  - split; [intros Hin; by apply elem_of_nil in Hin|].
    by intros (i & item & Hl & _).
  - cbn [concat_indexed]. rewrite elem_of_app, IH. split.
    + intros [Hin|(i & item' & Hl & Hin)].
      * exists 0%nat, item. by rewrite Nat.add_0_r.
      * exists (S i), item'. split; [done|].
        by replace (index + S i)%nat with (S index + i)%nat by lia.
    + intros ([|i] & item' & Hl & Hin).
      * left. injection Hl as <-. by rewrite Nat.add_0_r in Hin.
      * right. exists i, item'. split; [done|].
        by replace (S index + i)%nat with (index + S i)%nat by lia.
Qed.

(** Every visit of a tree is the visit of the node at some place. *)
Lemma visits_node_at_inv node :
  ∀ pathSegments parentId entry,
    entry ∈ visits node pathSegments parentId →
    ∃ place raw parent,
      node_at node place = Some raw
      ∧ entry = (id (normalizeNode raw
                       (pathSegments ++ (String_nat <$> place)) parent),
                 normalizeNode raw
                   (pathSegments ++ (String_nat <$> place)) parent).
Proof.
  induction node as [attributes children IH] using TextSnapshotNode_ind.
  intros pathSegments parentId entry. cbn [visits].
  intros [-> |Hin]%elem_of_cons.
  - exists [], (SnapshotNode attributes children), parentId.
    by rewrite fmap_nil, app_nil_r.
  - apply elem_of_concat_indexed in Hin as (i & child & Hchild & Hin).
    pose proof (proj1 (Forall_lookup _ _) IH i child Hchild) as Hc.
    apply Hc in Hin as (place & raw & parent & Hraw & ->).
    exists (i :: place), raw, parent. split.
    + cbn [node_at node_children]. by rewrite Hchild.
    + by rewrite fmap_cons, <- app_assoc.
Qed.

(** The node at a place is visited, at the path of that place. *)
Lemma visits_node_at place :
  ∀ node raw pathSegments parentId,
    node_at node place = Some raw →
    ∃ parent,
      (id (normalizeNode raw (pathSegments ++ (String_nat <$> place)) parent),
       normalizeNode raw (pathSegments ++ (String_nat <$> place)) parent)
        ∈ visits node pathSegments parentId.
Proof.
  induction place as [|i place IH];
    intros [attributes children] raw pathSegments parentId Hraw.
  - injection Hraw as <-. exists parentId.
    rewrite fmap_nil, app_nil_r. cbn [visits]. apply list_elem_of_here.
  - cbn [node_at node_children] in Hraw.
    destruct (children !! i) as [child|] eqn:Hchild; [|done].
    destruct (IH child raw (pathSegments ++ [String_nat i])
                (Some (id (normalizeNode (SnapshotNode attributes children)
                             pathSegments parentId))) Hraw)
      as [parent Hin].
    rewrite <- (app_assoc pathSegments [String_nat i]) in Hin.
    exists parent. cbn [visits]. apply list_elem_of_further.
    apply elem_of_concat_indexed. exists i, child. split; [done|].
    rewrite fmap_cons. exact Hin.
Qed.

(** ** Ids with and without identity hints *)

Lemma getStableNodeId_hinted node p q :
  has_hint node = true →
  getStableNodeId node p = getStableNodeId node q
  ∧ getStableNodeId node p ≠ "path:" +:+ q.
Proof.
  unfold has_hint, getStableNodeId.
  destruct (obj_get (node_attributes node) "backendDOMNodeId");
    destruct (obj_get (node_attributes node) "nodeId");
    destruct (obj_get (node_attributes node) "axId"); done.
Qed.

Lemma getStableNodeId_path_no_hint node p q :
  getStableNodeId node p = "path:" +:+ q → has_hint node = false.
Proof.
  intros Hid. destruct (has_hint node) eqn:Hhint; [|done].
  by destruct (getStableNodeId_hinted node p q Hhint) as [_ Hne].
Qed.

(** The entry of a visit stored under a path id belongs to a node without
    hint, at the place the path tells. *)
Lemma path_entry node pathSegments parentId entry q :
  Forall is_segment pathSegments →
  entry ∈ visits node pathSegments parentId →
  entry.1 = "path:" +:+ q →
  ∃ place raw parent,
    node_at node place = Some raw ∧ has_hint raw = false
    ∧ q = join "." (pathSegments ++ (String_nat <$> place))
    ∧ entry.2 = normalizeNode raw (pathSegments ++ (String_nat <$> place))
                  parent.
Proof.
  intros Hsegments Hin Hq.
  apply visits_node_at_inv in Hin as (place & raw & parent & Hraw & ->).
  cbn [fst snd] in *. rewrite normalizeNode_id in Hq.
  exists place, raw, parent. split; [done|].
  split; [by apply (getStableNodeId_path_no_hint _ _ _ Hq)|].
  split; [|done]. symmetry. by apply (getStableNodeId_path_inv raw).
Qed.

(** A node without hint is visited under the path id of its place. *)
Lemma path_node_entry node place raw pathSegments parentId :
  node_at node place = Some raw → has_hint raw = false →
  ∃ parent,
    ("path:" +:+ join "." (pathSegments ++ (String_nat <$> place)),
     normalizeNode raw (pathSegments ++ (String_nat <$> place)) parent)
      ∈ visits node pathSegments parentId.
Proof.
  intros Hraw Hhint.
  destruct (visits_node_at place node raw pathSegments parentId Hraw)
    as [parent Hin].
  exists parent. rewrite normalizeNode_id in Hin.
  by rewrite getStableNodeId_no_hint in Hin.
Qed.

(** A node with a hint is visited under the same id wherever its tree
    stands, and with the same data. *)
Lemma hinted_entry_moves node pathSegments parentId pathSegments' parentId'
  entry :
  entry ∈ visits node pathSegments parentId →
  (∀ q, entry.1 ≠ "path:" +:+ q) →
  ∃ node', (entry.1, node') ∈ visits node pathSegments' parentId'
           ∧ data node' = data entry.2.
Proof.
  intros Hin Hid.
  apply visits_node_at_inv in Hin as (place & raw & parent & Hraw & ->).
  cbn [fst snd] in *.
  assert (has_hint raw = true) as Hhint.
  { destruct (has_hint raw) eqn:Hhint; [done|]. exfalso.
    apply (Hid (join "." (pathSegments ++ (String_nat <$> place)))).
    rewrite normalizeNode_id. by apply getStableNodeId_no_hint. }
  destruct (visits_node_at place node raw pathSegments' parentId' Hraw)
    as [parent' Hin'].
  exists (normalizeNode raw (pathSegments' ++ (String_nat <$> place))
            parent').
  split; [|done]. rewrite !normalizeNode_id in *.
  by rewrite (proj1 (getStableNodeId_hinted raw _
                       (join "." (pathSegments' ++ (String_nat <$> place)))
                       Hhint)).
Qed.

(** Every visit is stored under a path id or under an id made of hints. *)
Lemma entry_id_cases node pathSegments parentId entry :
  entry ∈ visits node pathSegments parentId →
  (∃ q, entry.1 = "path:" +:+ q) ∨ (∀ q, entry.1 ≠ "path:" +:+ q).
Proof.
  intros Hin.
  apply visits_node_at_inv in Hin as (place & raw & parent & Hraw & ->).
  cbn [fst]. rewrite normalizeNode_id.
  destruct (has_hint raw) eqn:Hhint.
  - right. intros q. by apply getStableNodeId_hinted.
  - left. eexists. by apply getStableNodeId_no_hint.
Qed.

(** ** Paths under two siblings *)

Lemma segments_snoc L (i : nat) :
  Forall is_segment L → Forall is_segment (L ++ [String_nat i]).
Proof.
  intros HL. apply Forall_app. split; [done|].
  constructor; [apply String_nat_segment|constructor].
Qed.

Lemma segments_places L (place : list nat) :
  Forall is_segment L → Forall is_segment (L ++ (String_nat <$> place)).
Proof.
  intros HL. apply Forall_app. split; [done|].
  apply Forall_fmap, Forall_forall. intros n _. apply String_nat_segment.
Qed.

Lemma place_path_inj L (p q : list nat) :
  Forall is_segment L →
  join "." (L ++ (String_nat <$> p)) = join "." (L ++ (String_nat <$> q)) →
  p = q.
Proof.
  intros HL Heq. apply join_inj in Heq; try by apply segments_places.
  apply app_inv_head in Heq. revert Heq. apply list_fmap_eq_inj.
  intros n m. apply String_nat_inj.
Qed.

Lemma sibling_paths_apart L (i j : nat) (p q : list nat) :
  Forall is_segment L → i ≠ j →
  join "." ((L ++ [String_nat i]) ++ (String_nat <$> p))
  ≠ join "." ((L ++ [String_nat j]) ++ (String_nat <$> q)).
Proof.
  intros HL Hij Heq.
  apply join_inj in Heq; try by apply segments_places, segments_snoc.
  rewrite <- !app_assoc in Heq. apply app_inv_head in Heq.
  injection Heq as Heq _. by apply String_nat_inj in Heq.
Qed.

(** ** The visits of the two trees *)

Lemma swap_frame_sym a b V V' : swap_frame a b V V' → swap_frame b a V' V.
Proof.
  intros (X & Y & Z & L & i & j & parent & Hij & HL & -> & ->).
  by exists X, Y, Z, L, i, j, parent.
Qed.

Lemma swapped_siblings_frame a b node node' :
  swapped_siblings a b node node' →
  ∀ pathSegments parentId,
    Forall is_segment pathSegments →
    swap_frame a b (visits node pathSegments parentId)
      (visits node' pathSegments parentId).
Proof.
  intros Hsw.
  induction Hsw as [attributes before between after
                   |attributes before child child' after _ IH];
    intros pathSegments parentId Hsegments.
  - rewrite (visits_child attributes before a).
    rewrite (visits_child attributes before b). cbv beta zeta.
    rewrite !concat_indexed_app. cbn [concat_indexed].
    set (normalized := normalizeNode _ _ _).
    set (under := λ (child : TextSnapshotNode) (index : nat),
           visits child (pathSegments ++ [String_nat index])
             (Some (id normalized))).
    exists ((id normalized, normalized) :: concat_indexed under before 0),
      (concat_indexed under between (S (length before))),
      (concat_indexed under after
         (S (length between + S (length before)))),
      pathSegments, (length before),
      (length between + S (length before))%nat, (Some (id normalized)).
    split; [lia|]. split; [done|]. split.
    + by rewrite <- ?app_assoc.
    + by rewrite <- ?app_assoc.
  - rewrite !visits_child. cbv beta zeta.
    set (normalized := normalizeNode _ _ _).
    set (under := λ (child : TextSnapshotNode) (index : nat),
           visits child (pathSegments ++ [String_nat index])
             (Some (id normalized))).
    destruct (IH (pathSegments ++ [String_nat (length before)])
                (Some (id normalized)) (segments_snoc _ _ Hsegments))
      as (X & Y & Z & L & i & j & parent & Hij & HL & HV & HV').
    exists (((id normalized, normalized) :: concat_indexed under before 0)
            ++ X), Y,
      (Z ++ concat_indexed under after (S (length before))),
      L, i, j, parent.
    split; [done|]. split; [done|]. unfold under at 2 5.
    rewrite HV, HV'. split; by rewrite <- ?app_assoc.
Qed.

Lemma visits_paths_ok node pathSegments parentId :
  Forall is_segment pathSegments →
  paths_ok (visits node pathSegments parentId).
Proof.
  intros Hsegments. split; [by apply visits_paths_NoDup|].
  apply visits_path_ids.
Qed.

(** What stands around the two subtrees has no path in common with
    them. *)
Lemma frame_apart {A B} (f : A → B) (X M Y N Z : list A) x m :
  NoDup (f <$> X ++ M ++ Y ++ N ++ Z) →
  x ∈ X ++ Y ++ Z → m ∈ M ++ N → f x ≠ f m.
Proof.
  intros Hnd Hx Hm Heq.
  assert (X ++ M ++ Y ++ N ++ Z ≡ₚ (X ++ Y ++ Z) ++ (M ++ N)) as Hperm.
  { transitivity (X ++ (Y ++ Z) ++ (M ++ N));
      [|by rewrite <- !(assoc_L (++))].
    f_equiv. rewrite (Permutation_app_comm (Y ++ Z) (M ++ N)).
    rewrite <- !(assoc_L (++)). f_equiv. apply Permutation_app_swap_app. }
  rewrite Hperm, fmap_app in Hnd. apply NoDup_app in Hnd as (_ & Hdis & _).
  apply (Hdis (f x)).
  - by apply list_elem_of_fmap_2.
  - rewrite Heq. by apply list_elem_of_fmap_2.
Qed.

(** Under a path id one node only is visited. *)
Lemma path_id_unique V q n n' :
  paths_ok V → ("path:" +:+ q, n) ∈ V → ("path:" +:+ q, n') ∈ V → n = n'.
Proof.
  intros [Hnd Hids] Hn Hn'.
  pose proof (proj1 (Forall_forall _ _) Hids _ Hn q eq_refl) as Hp.
  pose proof (proj1 (Forall_forall _ _) Hids _ Hn' q eq_refl) as Hp'.
  cbn [snd] in Hp, Hp'. rewrite <- list_fmap_compose in Hnd.
  assert (("path:" +:+ q, n) = ("path:" +:+ q, n')) as Heq.
  { apply (NoDup_fmap_elem_inj _ _ _ _ Hnd Hn Hn'). cbn. congruence. }
  by injection Heq.
Qed.

(** An entry around the subtrees is not stored under the id of an entry of
    the subtrees. *)
Lemma frame_keys_apart X M Y N Z (x m : string * NormalizedAXNode) q :
  paths_ok (X ++ M ++ Y ++ N ++ Z) →
  x ∈ X ++ Y ++ Z → m ∈ M ++ N →
  m.1 = "path:" +:+ q → x.1 ≠ m.1.
Proof.
  intros [Hnd Hids] Hx Hm Hq Heq.
  assert (∀ l, l ∈ X ++ Y ++ Z ∨ l ∈ M ++ N → l ∈ X ++ M ++ Y ++ N ++ Z)
    as Hin.
  { intros l. rewrite !elem_of_app. tauto. }
  rewrite <- list_fmap_compose in Hnd.
  apply (frame_apart (path ∘ snd) X M Y N Z x m Hnd Hx Hm). cbn.
  rewrite (proj1 (Forall_forall _ _) Hids m (Hin m (or_intror Hm)) q Hq).
  apply (proj1 (Forall_forall _ _) Hids x (Hin x (or_introl Hx)) q).
  by rewrite Heq.
Qed.

(** ** The keys of the two snapshots *)

Lemma frame_keys_subset a b V V' :
  swap_frame a b V V' → paths_ok V → paths_ok V' →
  (∀ key, key ∈ V'.*1 → key ∈ V.*1) ↔ same_path_identified a b.
Proof.
  intros (X & Y & Z & L & i & j & parent & Hij & HL & -> & ->) HV HV'.
  set (Li := L ++ [String_nat i]). set (Lj := L ++ [String_nat j]).
  assert (Forall is_segment Li) as HLi by by apply segments_snoc.
  assert (Forall is_segment Lj) as HLj by by apply segments_snoc.
  assert (∀ (x y : TextSnapshotNode) L1 L2 place
            (W W' : list (string * NormalizedAXNode)),
            (∀ p q, join "." (L1 ++ (String_nat <$> p))
                    ≠ join "." (L2 ++ (String_nat <$> q))) →
            Forall is_segment L1 → Forall is_segment L2 →
            (∀ key, key ∈ W'.*1 → key ∈ W.*1) →
            (∀ e, e ∈ visits x L1 parent → e ∈ W') →
            (∀ e, e ∈ W → e ∈ visits y L1 parent ∨ e ∈ visits x L2 parent
                          ∨ (e ∈ X ++ Y ++ Z)) →
            (∀ e m q, e ∈ X ++ Y ++ Z → m ∈ visits x L1 parent →
                      m.1 = "path:" +:+ q → e.1 ≠ m.1) →
            path_identified x place → path_identified y place)
    as Hstep.
  { intros x y L1 L2 place W W' Hapart HL1 HL2 Hsub HW' HW Hcontext
      (raw & Hraw & Hhint).
    destruct (path_node_entry x place raw L1 parent Hraw Hhint)
      as [par Hin].
    assert ("path:" +:+ join "." (L1 ++ (String_nat <$> place)) ∈ W.*1)
      as Hkey.
    { apply Hsub, list_elem_of_fmap. eexists. split; [|by apply HW'].
      done. }
    apply list_elem_of_fmap in Hkey as ([k n] & Hk & Hn). cbn [fst] in Hk.
    destruct (HW _ Hn) as [He|[He|He]].
    - apply (path_entry y L1 parent _
               (join "." (L1 ++ (String_nat <$> place))) HL1) in He
        as (place' & raw' & par' & Hraw' & Hhint' & Hq & _); [|done].
      apply place_path_inj in Hq as ->; [|done]. by exists raw'.
    - apply (path_entry x L2 parent _
               (join "." (L1 ++ (String_nat <$> place))) HL2) in He
        as (place' & raw' & par' & Hraw' & Hhint' & Hq & _); [|done].
      by apply Hapart in Hq.
    - exfalso. apply (Hcontext _ _ _ He Hin eq_refl). by cbn [fst]. }
  assert (∀ e : string * NormalizedAXNode,
            e ∈ X ++ visits a Li parent ++ Y ++ visits b Lj parent ++ Z
            ↔ e ∈ visits a Li parent ∨ e ∈ visits b Lj parent
              ∨ e ∈ X ++ Y ++ Z) as HinV.
  { intros e. rewrite !elem_of_app. tauto. }
  assert (∀ e : string * NormalizedAXNode,
            e ∈ X ++ visits b Li parent ++ Y ++ visits a Lj parent ++ Z
            ↔ e ∈ visits b Li parent ∨ e ∈ visits a Lj parent
              ∨ e ∈ X ++ Y ++ Z) as HinV'.
  { intros e. rewrite !elem_of_app. tauto. }
  (* an entry of a subtree has its key in the other tree: a positional id
     when the other subtree has a positional node there, a hinted id where
     the subtree stands in the other tree *)
  assert (∀ (x y : TextSnapshotNode) L1 L2 e
            (W : list (string * NormalizedAXNode)),
            Forall is_segment L1 →
            (∀ place, path_identified x place → path_identified y place) →
            (∀ m, m ∈ visits y L1 parent → m ∈ W) →
            (∀ m, m ∈ visits x L2 parent → m ∈ W) →
            e ∈ visits x L1 parent → e.1 ∈ W.*1) as Hback.
  { intros x y L1 L2 e W HL1 Hxy HyW HxW He.
    destruct (entry_id_cases x L1 parent e He) as [[q Hq]|Hnot].
    - destruct (path_entry x L1 parent e q HL1 He Hq)
        as (place & raw & par & Hraw & Hhint & Hpath & _).
      subst q.
      destruct (Hxy place) as (raw' & Hraw' & Hhint'); [by exists raw|].
      destruct (path_node_entry y place raw' L1 parent Hraw' Hhint')
        as [par' Hin].
      apply list_elem_of_fmap. eexists. split; [|apply HyW; exact Hin].
      exact Hq.
    - destruct (hinted_entry_moves x L1 parent L2 parent e He Hnot)
        as (node' & Hin & _).
      apply list_elem_of_fmap. exists (e.1, node'). split; [done|].
      by apply HxW. }
  split.
  - intros Hsub place. split.
    + apply (Hstep a b Lj Li place
               (X ++ visits a Li parent ++ Y ++ visits b Lj parent ++ Z)
               (X ++ visits b Li parent ++ Y ++ visits a Lj parent ++ Z));
        try done.
      * intros p q Heq. symmetry in Heq. by apply sibling_paths_apart in Heq.
      * intros e He. apply HinV'. tauto.
      * intros e He. apply HinV in He. tauto.
      * intros e m q He Hm Hq.
        apply (frame_keys_apart _ _ _ _ _ e m q HV' He); [|done].
        apply elem_of_app. by right.
    + apply (Hstep b a Li Lj place
               (X ++ visits a Li parent ++ Y ++ visits b Lj parent ++ Z)
               (X ++ visits b Li parent ++ Y ++ visits a Lj parent ++ Z));
        try done.
      * intros p q Heq. by apply sibling_paths_apart in Heq.
      * intros e He. apply HinV'. tauto.
      * intros e He. apply HinV in He. tauto.
      * intros e m q He Hm Hq.
        apply (frame_keys_apart _ _ _ _ _ e m q HV' He); [|done].
        apply elem_of_app. by left.
  - intros Hshape key Hkey.
    apply list_elem_of_fmap in Hkey as (e & -> & He).
    apply HinV' in He as [He|[He|He]].
    + apply (Hback b a Li Lj e); try done.
      * intros place. apply Hshape.
      * intros m Hm. apply HinV. tauto.
      * intros m Hm. apply HinV. tauto.
    + apply (Hback a b Lj Li e); try done.
      * intros place. apply Hshape.
      * intros m Hm. apply HinV. tauto.
      * intros m Hm. apply HinV. tauto.
    + apply list_elem_of_fmap. exists e. split; [done|].
      apply HinV. tauto.
Qed.

Lemma same_path_identified_sym a b :
  same_path_identified a b → same_path_identified b a.
Proof. intros Hsame place. symmetry. apply Hsame. Qed.

(** ** The changed nodes *)

Lemma changed_not_nil baseline current :
  omap (changed_of baseline) (nodes current) ≠ []
  ↔ ∃ key previousNode currentNode,
      (key, currentNode) ∈ nodes current
      ∧ obj_lookup (nodes baseline) key = Some previousNode
      ∧ diffNode previousNode currentNode ≠ [].
Proof.
  split.
  - destruct (omap _ _) as [|change rest] eqn:Hchanged; [done|]. intros _.
    assert (change ∈ omap (changed_of baseline) (nodes current)) as Hin.
    { rewrite Hchanged. apply list_elem_of_here. }
    apply list_elem_of_omap in Hin as ([k n'] & Hin & Hchange).
    unfold changed_of in Hchange. cbn [fst snd] in Hchange.
    destruct (obj_lookup (nodes baseline) k) as [n|] eqn:Hlook; [|done].
    exists k, n, n'. split; [done|]. split; [done|].
    intros Hnil. by rewrite Hnil in Hchange.
  - intros (k & n & n' & Hin & Hlook & Hdiff) Hnil.
    pose proof (proj1 (omap_nil_iff _ _) Hnil (k, n') Hin) as Hnone.
    unfold changed_of in Hnone. cbn [fst snd] in Hnone.
    rewrite Hlook in Hnone. by destruct (diffNode n n').
Qed.

Lemma frame_changed a b V V' :
  swap_frame a b V V' → paths_ok V → paths_ok V' →
  NoDup V.*1 →
  (∃ key n n',
     (key, n') ∈ foldl (λ o kv, obj_set o kv.1 kv.2) [] V'
     ∧ obj_lookup (foldl (λ o kv, obj_set o kv.1 kv.2) [] V) key = Some n
     ∧ diffNode n n' ≠ [])
  ↔ ∃ place x y,
      node_at a place = Some x ∧ node_at b place = Some y
      ∧ has_hint x = false ∧ has_hint y = false
      ∧ data_differ x y.
Proof.
  intros (X & Y & Z & L & i & j & parent & Hij & HL & -> & ->) HV HV' Hnd.
  set (Li := L ++ [String_nat i]) in *. set (Lj := L ++ [String_nat j]) in *.
  assert (Forall is_segment Li) as HLi by by apply segments_snoc.
  assert (Forall is_segment Lj) as HLj by by apply segments_snoc.
  assert (∀ e : string * NormalizedAXNode,
            e ∈ X ++ visits a Li parent ++ Y ++ visits b Lj parent ++ Z
            ↔ e ∈ visits a Li parent ∨ e ∈ visits b Lj parent
              ∨ e ∈ X ++ Y ++ Z) as HinV.
  { intros e. rewrite !elem_of_app. tauto. }
  assert (∀ e : string * NormalizedAXNode,
            e ∈ X ++ visits b Li parent ++ Y ++ visits a Lj parent ++ Z
            ↔ e ∈ visits b Li parent ∨ e ∈ visits a Lj parent
              ∨ e ∈ X ++ Y ++ Z) as HinV'.
  { intros e. rewrite !elem_of_app. tauto. }
  (* the baseline has one entry under each key *)
  assert (∀ key n m,
            (key, n) ∈ X ++ visits a Li parent ++ Y
                         ++ visits b Lj parent ++ Z →
            (key, m) ∈ X ++ visits a Li parent ++ Y
                         ++ visits b Lj parent ++ Z →
            n = m) as Hone.
  { intros key n m Hn Hm.
    assert ((key, n) = (key, m)) as Heq
      by by apply (NoDup_fmap_elem_inj fst _ _ _ Hnd Hn Hm).
    by injection Heq. }
  (* an entry of one tree under the key of an entry of a subtree of the
     other: the two stand at one place, or have the same data *)
  assert (∀ (x y : TextSnapshotNode) L1 L2 key n n',
            Forall is_segment L1 → Forall is_segment L2 →
            (∀ p q, join "." (L1 ++ (String_nat <$> p))
                    ≠ join "." (L2 ++ (String_nat <$> q))) →
            (∀ m, m ∈ visits y L2 parent →
                  m ∈ X ++ visits a Li parent ++ Y
                        ++ visits b Lj parent ++ Z) →
            ((key, n) ∈ visits x L1 parent ∨ (key, n) ∈ visits y L2 parent
             ∨ ((key, n) ∈ X ++ Y ++ Z ∧ ∀ q, key ≠ "path:" +:+ q)) →
            (key, n) ∈ X ++ visits a Li parent ++ Y
                         ++ visits b Lj parent ++ Z →
            (key, n') ∈ visits y L1 parent →
            diffNode n n' ≠ [] →
            ∃ place x' y',
              node_at x place = Some x' ∧ node_at y place = Some y'
              ∧ has_hint x' = false ∧ has_hint y' = false
              ∧ data_differ x' y') as Hfacing.
  { intros x y L1 L2 key n n' HL1 HL2 Hapart HyV Hn HnV Hn' Hdiff.
    destruct (entry_id_cases y L1 parent (key, n') Hn') as [[q Hq]|Hnot];
      cbn [fst] in *; [subst key|].
    - destruct (path_entry y L1 parent (_, n') q HL1 Hn' eq_refl)
        as (place & y' & par & Hy' & Hhy & Hq & Hnode').
      subst q. cbn [snd] in Hnode'.
      destruct Hn as [Hn|[Hn|[_ Hn]]]; [| |by destruct (Hn _ eq_refl)].
      + destruct (path_entry x L1 parent (_, n) _ HL1 Hn eq_refl)
          as (place' & x' & par' & Hx' & Hhx & Hq & Hnode).
        cbn [snd] in Hnode. apply place_path_inj in Hq as <-; [|done].
        exists place, x', y'. do 4 (split; [done|]).
        apply diffNode_not_nil in Hdiff as [property Hproperty].
        exists property. by rewrite Hnode, Hnode' in Hproperty.
      + destruct (path_entry y L2 parent (_, n) _ HL2 Hn eq_refl)
          as (place' & ? & ? & _ & _ & Hq & _).
        by apply Hapart in Hq.
    - exfalso. apply Hdiff.
      destruct (hinted_entry_moves y L1 parent L2 parent (key, n') Hn' Hnot)
        as (m & Hm & Hdata).
      cbn [fst snd] in *.
      rewrite <- (Hone key m n (HyV _ Hm) HnV).
      by apply diffNode_same_data. }
  split.
  - intros (key & n & n' & Hin' & Hlook & Hdiff).
    assert ((key, n) ∈ X ++ visits a Li parent ++ Y
                        ++ visits b Lj parent ++ Z) as Hn.
    { apply obj_lookup_Some_elem, obj_fold_set_elem in Hlook as [Hn|Hn];
        [by apply elem_of_nil in Hn|done]. }
    apply obj_fold_set_elem in Hin' as [Hn'|Hn'];
      [by apply elem_of_nil in Hn'|].
    pose proof Hn as HnV. apply HinV in Hn. apply HinV' in Hn'.
    destruct Hn' as [Hn'|[Hn'|Hn']].
    + apply (Hfacing a b Li Lj key n n'); try done.
      * intros p q Heq. by apply sibling_paths_apart in Heq.
      * intros m Hm. apply HinV. tauto.
      * destruct Hn as [Hn|[Hn|Hn]]; [by left|by right; left|].
        right. right. split; [done|]. intros q ->.
        apply (frame_keys_apart _ _ _ _ _ ("path:" +:+ q, n)
                 ("path:" +:+ q, n') q HV' Hn); [|done|done].
        apply elem_of_app. by left.
    + destruct (Hfacing b a Lj Li key n n')
        as (place & y & x & Hy & Hx & Hhy & Hhx & Hd); try done.
      * intros p q Heq. symmetry in Heq. by apply sibling_paths_apart in Heq.
      * intros m Hm. apply HinV. tauto.
      * destruct Hn as [Hn|[Hn|Hn]]; [by right; left|by left|].
        right. right. split; [done|]. intros q ->.
        apply (frame_keys_apart _ _ _ _ _ ("path:" +:+ q, n)
                 ("path:" +:+ q, n') q HV' Hn); [|done|done].
        apply elem_of_app. by right.
      * exists place, x, y. do 4 (split; [done|]).
        by apply data_differ_sym.
    + exfalso. apply Hdiff.
      assert ((key, n') ∈ X ++ visits a Li parent ++ Y
                          ++ visits b Lj parent ++ Z) as Hn'V
        by (apply HinV; tauto).
      rewrite (Hone key n n' HnV Hn'V). by apply diffNode_same_data.
  - intros (place & x & y & Hx & Hy & Hhx & Hhy & [property Hproperty]).
    destruct (path_node_entry a place x Li parent Hx Hhx) as [pa Hina].
    destruct (path_node_entry b place y Li parent Hy Hhy) as [pb Hinb].
    eexists _, _, _. split; [|split].
    + apply obj_lookup_Some_elem. apply obj_fold_lookup_only.
      * apply HinV'. left. exact Hinb.
      * intros value Hvalue.
        eapply path_id_unique; [exact HV'|exact Hvalue|].
        apply HinV'. left. exact Hinb.
    + apply obj_fold_lookup_only.
      * apply HinV. left. exact Hina.
      * intros value Hvalue.
        eapply path_id_unique; [exact HV|exact Hvalue|].
        apply HinV. left. exact Hina.
    + apply diffNode_not_nil. by exists property.
Qed.

(** C1, as the code has it.  Two siblings of a tree are exchanged, each with
    the nodes below it.  The ids of the nodes without identity hint are
    positional, so the diff of the normalized original against the
    normalized result reports added nodes exactly when the two subtrees do
    not have their nodes without hint at the same places, and removed nodes
    exactly then: a place where only one of the two has such a node gives
    one id that appears and one that disappears.  Two leaves without hint,
    or two subtrees without hints and of one shape, give no added and no
    removed node.  When no node of the two subtrees has an own property
    named [__proto__] and the raw nodes of the tree resolve to pairwise
    distinct ids, the diff reports changed nodes exactly when, at some
    place where both subtrees have a node without hint, the data of the two
    nodes differ. *)
Theorem swapped_siblings_diff (a b node node' : TextSnapshotNode)
  (now now' : string) :
  swapped_siblings a b node node' →
  (added (diffSnapshots (normalizeSnapshot {| root := node |} now)
                        (normalizeSnapshot {| root := node' |} now')) = []
   ↔ same_path_identified a b)
  ∧ (removed (diffSnapshots (normalizeSnapshot {| root := node |} now)
                            (normalizeSnapshot {| root := node' |} now'))
     = []
     ↔ same_path_identified a b)
  ∧ (proto_free a = true → proto_free b = true →
     NoDup (stable_ids {| root := node |}) →
     changed (diffSnapshots (normalizeSnapshot {| root := node |} now)
                            (normalizeSnapshot {| root := node' |} now'))
     ≠ []
     ↔ ∃ place x y,
         node_at a place = Some x ∧ node_at b place = Some y
         ∧ has_hint x = false ∧ has_hint y = false
         ∧ data_differ x y).
Proof.
  intros Hsw.
  pose proof (swapped_siblings_frame a b node node' Hsw ["0"] None
                root_segment) as Hframe.
  pose proof (visits_paths_ok node ["0"] None root_segment) as HV.
  pose proof (visits_paths_ok node' ["0"] None root_segment) as HV'.
  set (baseline := normalizeSnapshot {| root := node |} now).
  set (current := normalizeSnapshot {| root := node' |} now').
  assert (∀ key, key ∈ obj_keys (nodes baseline)
                 ↔ key ∈ (visits node ["0"] None).*1) as Hbase.
  { intros key. apply normalized_keys. }
  assert (∀ key, key ∈ obj_keys (nodes current)
                 ↔ key ∈ (visits node' ["0"] None).*1) as Hcur.
  { intros key. apply normalized_keys. }
  rewrite diffSnapshots_omap. cbn [added removed changed].
  split; [|split].
  - rewrite added_nil_iff.
    rewrite <- (frame_keys_subset a b _ _ Hframe HV HV').
    split; intros Hsub key Hkey.
    + apply Hbase, Hsub. by apply Hcur.
    + apply Hbase, Hsub. by apply Hcur.
  - change (omap (removed_of current) (nodes baseline))
      with (omap (added_of current) (nodes baseline)).
    rewrite added_nil_iff. split.
    + intros Hsub. apply same_path_identified_sym.
      apply (frame_keys_subset b a _ _ (swap_frame_sym _ _ _ _ Hframe)
               HV' HV).
      intros key Hkey. apply Hcur, Hsub. by apply Hbase.
    + intros Hshape key Hkey. apply Hcur.
      apply (proj2 (frame_keys_subset b a _ _ (swap_frame_sym _ _ _ _ Hframe)
                      HV' HV)); [by apply same_path_identified_sym|].
      by apply Hbase.
  - intros _ _ Hnd. rewrite changed_not_nil.
    rewrite <- (frame_changed a b _ _ Hframe HV HV' Hnd).
    unfold baseline, current. by rewrite !normalizeSnapshot_visits.
Qed.

End SiblingFacts.

(** * More about colliding ids and the handler *)

Section HandlerMore.
Context {E : Engine}.

(** X16.  When several raw nodes resolve to one id, the normalized
    snapshot keeps under that id the node that comes last in pre-order:
    reading an id gives the last write [traverse] made for it, and gives
    nothing exactly when no raw node resolves to it. *)
Theorem colliding_ids_last_node_wins (snapshot : TextSnapshot)
  (now key : string) :
  obj_lookup (nodes (normalizeSnapshot snapshot now)) key
  = obj_lookup (reverse (visits (root snapshot) ["0"] None)) key
  ∧ (obj_lookup (nodes (normalizeSnapshot snapshot now)) key = None
     ↔ key ∉ stable_ids snapshot).
Proof.
  assert (obj_lookup (nodes (normalizeSnapshot snapshot now)) key
          = obj_lookup (reverse (visits (root snapshot) ["0"] None)) key)
    as Hlast.
  { rewrite normalizeSnapshot_visits, obj_fold_lookup.
    by destruct (obj_lookup (reverse _) key). }
  split; [done|].
  rewrite obj_lookup_None. unfold not. by rewrite normalized_keys.
Qed.

(** X17.  Whatever the request and the capture, the handler only appends
    to the response, and at least one line; it leaves every baseline other
    than the one under the baseline key as it is; and under the baseline
    key the store holds afterwards what it held before or the
    normalization of this capture. *)
Theorem handler_touches_one_baseline (params : Params)
  (capture : option TextSnapshot) (now : string) (response : list string)
  (store : gmap string NormalizedSnapshot) :
  let key := trimmed_or (baselineKey params) "default" in
  let result := takeChangeSnapshot params capture now response store in
  (∃ lines, lines ≠ [] ∧ result.1 = response ++ lines)
  ∧ (∀ other, other ≠ key → result.2 !! other = store !! other)
  ∧ (result.2 !! key = store !! key
     ∨ ∃ snapshot, capture = Some snapshot
                   ∧ result.2 !! key
                     = Some (normalizeSnapshot snapshot now)).
Proof.
  intros key result. unfold result, takeChangeSnapshot.
  unfold getAccessibilityBaseline, setAccessibilityBaseline. fold key.
  destruct capture as [snapshot|]; cbn [fst snd].
  - destruct (store !! trimmed_or (compareTo params) key) as [baseline|];
      cbn [fst snd].
    + split; [|split].
      * destruct (hasSnapshotChanges _); cbn [negb]; eexists; split;
          try done; unfold changeReport; done.
      * intros other Hother.
        destruct (default true (replaceBaseline params)); [|done].
        by rewrite lookup_insert_ne.
      * destruct (default true (replaceBaseline params)); [|by left].
        right. exists snapshot. by rewrite lookup_insert_eq.
    + split; [|split].
      * eexists. split; [|done]. done.
      * intros other Hother. by rewrite lookup_insert_ne.
      * right. exists snapshot. by rewrite lookup_insert_eq.
  - split; [|split].
    + eexists. split; [|done]. done.
    + done.
    + by left.
Qed.

(** X18.  Two calls in a row on one key, comparing against that key and
    with replacement not opted out: whatever the store held, the first call
    leaves the normalization of its capture under the key, and the second
    call reports the diff of its capture against the first capture and
    then stores its own. *)
Theorem successive_calls_diff_against_previous_capture (params : Params)
  (earlier later : TextSnapshot) (now1 now2 : string)
  (response : list string) (store : gmap string NormalizedSnapshot) :
  let key := trimmed_or (baselineKey params) "default" in
  let first := takeChangeSnapshot params (Some earlier) now1 response store in
  let second :=
    takeChangeSnapshot params (Some later) now2 first.1 first.2 in
  let diff := diffSnapshots (normalizeSnapshot earlier now1)
                (normalizeSnapshot later now2) in
  trimmed_or (compareTo params) key = key →
  replaceBaseline params ≠ Some false →
  first.2 = <[key := normalizeSnapshot earlier now1]> store
  ∧ second.1
    = first.1 ++
      (if hasSnapshotChanges diff then changeReport key diff
       else ["No accessibility changes compared to baseline " +:+ dquote
               +:+ key +:+ dquote +:+ "."])
  ∧ second.2 = <[key := normalizeSnapshot later now2]> store.
Proof.
  intros key first second diff Hcompare Hreplace.
  assert (default true (replaceBaseline params) = true) as Hrep.
  { destruct (replaceBaseline params) as [[]|]; done. }
  assert (first.2 = <[key := normalizeSnapshot earlier now1]> store)
    as Hfirst.
  { unfold first, takeChangeSnapshot.
    unfold getAccessibilityBaseline, setAccessibilityBaseline.
    fold key. rewrite Hcompare, Hrep.
    by destruct (store !! key). }
  split; [done|].
  unfold second, takeChangeSnapshot.
  unfold getAccessibilityBaseline, setAccessibilityBaseline.
  fold key. rewrite Hcompare, Hrep, Hfirst, lookup_insert_eq.
  cbn [fst snd]. fold diff. split.
  - by destruct (hasSnapshotChanges diff).
  - by rewrite insert_insert_eq.
Qed.

(** X19.  With replacement opted out and a baseline stored under the
    compare key, a call reports the diff of its capture against that
    baseline and returns the store as it received it, so that the next
    call compares against the same baseline again. *)
Theorem pinned_baseline_is_kept (params : Params)
  (snapshot next : TextSnapshot) (now1 now2 : string)
  (response : list string) (store : gmap string NormalizedSnapshot)
  (baseline : NormalizedSnapshot) :
  let key := trimmed_or (baselineKey params) "default" in
  let compareKey := trimmed_or (compareTo params) key in
  let report := λ diff,
    if hasSnapshotChanges diff then changeReport compareKey diff
    else ["No accessibility changes compared to baseline " +:+ dquote
            +:+ compareKey +:+ dquote +:+ "."] in
  let first :=
    takeChangeSnapshot params (Some snapshot) now1 response store in
  let second := takeChangeSnapshot params (Some next) now2 first.1 first.2 in
  replaceBaseline params = Some false →
  store !! compareKey = Some baseline →
  first
  = (response
       ++ report (diffSnapshots baseline (normalizeSnapshot snapshot now1)),
     store)
  ∧ second
    = (response
         ++ report (diffSnapshots baseline (normalizeSnapshot snapshot now1))
         ++ report (diffSnapshots baseline (normalizeSnapshot next now2)),
       store).
Proof.
  intros key compareKey report first second Hreplace Hstored.
  assert (∀ capture now response',
            takeChangeSnapshot params (Some capture) now response' store
            = (response'
                 ++ report (diffSnapshots baseline
                              (normalizeSnapshot capture now)),
               store)) as Hcall.
  { intros capture now response'.
    unfold takeChangeSnapshot, getAccessibilityBaseline.
    fold key. fold compareKey. rewrite Hstored, Hreplace. unfold report.
    by destruct (hasSnapshotChanges _). }
  unfold second, first. rewrite !Hcall. cbn [fst snd].
  by rewrite <- app_assoc.
Qed.

End HandlerMore.

(** * The report of a diff *)

Section ReportFacts.
Context {E : Engine}.

Lemma node_lines_dash (line : string) (listed : list NormalizedAXNode) :
  line ∈ map (λ node, "- " +:+ formatNodeSummary node) listed →
  ∃ rest, line = "- " +:+ rest.
Proof.
  induction listed as [|node listed IH]; simpl; intros Hin.
  - by apply elem_of_nil in Hin.
  - apply elem_of_cons in Hin as [-> |Hin]; [by eexists|by apply IH].
Qed.

Lemma change_lines_dash (line : string) (entries : list NodeChange) :
  line ∈ flat_map (λ change,
            ("- " +:+ formatChangeSummary change) ::
            map (λ detail,
                   "  - " +:+ property detail +:+ ": "
                   +:+ formatDiffValue (before detail) +:+ " -> "
                   +:+ formatDiffValue (after detail))
                (changes change)) entries →
  ∃ rest, line = "- " +:+ rest ∨ line = "  - " +:+ rest.
Proof.
  induction entries as [|change entries IH]; simpl; intros Hin.
  - by apply elem_of_nil in Hin.
  - apply elem_of_cons in Hin as [-> |Hin]; [eexists; by left|].
    apply elem_of_app in Hin as [Hin|Hin]; [|by apply IH].
    clear IH. induction (changes change) as [|detail details IH]; simpl in Hin.
    + by apply elem_of_nil in Hin.
    + apply elem_of_cons in Hin as [-> |Hin]; [eexists; by right|by apply IH].
Qed.

Lemma change_lines_length (entries : list NodeChange) :
  length (flat_map (λ change,
            ("- " +:+ formatChangeSummary change) ::
            map (λ detail,
                   "  - " +:+ property detail +:+ ": "
                   +:+ formatDiffValue (before detail) +:+ " -> "
                   +:+ formatDiffValue (after detail))
                (changes change)) entries)
  = (length entries + sum_list (length ∘ changes <$> entries))%nat.
Proof.
  induction entries as [|change entries IH]; simpl; [done|].
  rewrite length_app, List.length_map, IH. unfold compose, fmap. lia.
Qed.

(** X20.  The report of a diff has a heading for the added nodes exactly
    when there are added nodes, and likewise for the removed and the
    changed ones; after its two opening lines it has one line per added
    node, one per removed node, one per changed node and one per changed
    property, besides the headings. *)
Theorem report_sections (compareKey : string) (diff : SnapshotDiff) :
  ("## Added" ∈ changeReport compareKey diff ↔ added diff ≠ [])
  ∧ ("## Removed" ∈ changeReport compareKey diff ↔ removed diff ≠ [])
  ∧ ("## Changed" ∈ changeReport compareKey diff ↔ changed diff ≠ [])
  ∧ length (changeReport compareKey diff)
    = (2
       + (match added diff with [] => 0 | _ => S (length (added diff)) end)
       + (match removed diff with [] => 0 | _ => S (length (removed diff)) end)
       + (match changed diff with
          | [] => 0
          | _ => S (length (changed diff)
                    + sum_list (length ∘ changes <$> changed diff))
          end))%nat.
Proof.
  assert (∀ heading,
            heading ∈ changeReport compareKey diff →
            heading = "## Added" ∨ heading = "## Removed"
            ∨ heading = "## Changed" →
            (heading = "## Added" ∧ added diff ≠ [])
            ∨ (heading = "## Removed" ∧ removed diff ≠ [])
            ∨ (heading = "## Changed" ∧ changed diff ≠ [])) as Hheading.
  { intros heading Hin Hcase. unfold changeReport in Hin.
    apply elem_of_app in Hin as [Hin|Hin].
    { apply elem_of_cons in Hin as [-> |Hin];
        [by destruct Hcase as [?|[?|?]]|].
      apply elem_of_cons in Hin as [-> |Hin];
        [by destruct Hcase as [?|[?|?]]|].
      by apply elem_of_nil in Hin. }
    apply elem_of_app in Hin as [Hin|Hin].
    { destruct (added diff) as [|node listed]; [by apply elem_of_nil in Hin|].
      apply elem_of_cons in Hin as [-> |Hin]; [by left|].
      apply node_lines_dash in Hin as [rest ->].
      by destruct Hcase as [?|[?|?]]. }
    apply elem_of_app in Hin as [Hin|Hin].
    { destruct (removed diff) as [|node listed];
        [by apply elem_of_nil in Hin|].
      apply elem_of_cons in Hin as [-> |Hin]; [right; by left|].
      apply node_lines_dash in Hin as [rest ->].
      by destruct Hcase as [?|[?|?]]. }
    destruct (changed diff) as [|change entries];
      [by apply elem_of_nil in Hin|].
    apply elem_of_cons in Hin as [-> |Hin]; [right; by right|].
    apply change_lines_dash in Hin as [rest [-> | ->]];
      by destruct Hcase as [?|[?|?]]. }
  split; [|split; [|split]].
  - split.
    + intros Hin.
      by destruct (Hheading _ Hin (or_introl eq_refl))
        as [[_ ?]|[[? _]|[? _]]].
    + intros Hadded. unfold changeReport.
      destruct (added diff) as [|node listed]; [done|].
      apply elem_of_app. right. apply elem_of_app. left.
      apply list_elem_of_here.
  - split.
    + intros Hin.
      by destruct (Hheading _ Hin (or_intror (or_introl eq_refl)))
        as [[? _]|[[_ ?]|[? _]]].
    + intros Hremoved. unfold changeReport.
      destruct (removed diff) as [|node listed]; [done|].
      apply elem_of_app. right. apply elem_of_app. right.
      apply elem_of_app. left. apply list_elem_of_here.
  - split.
    + intros Hin.
      by destruct (Hheading _ Hin (or_intror (or_intror eq_refl)))
        as [[? _]|[[? _]|[_ ?]]].
    + intros Hchanged. unfold changeReport.
      destruct (changed diff) as [|change entries]; [done|].
      apply elem_of_app. right. apply elem_of_app. right.
      apply elem_of_app. right. apply list_elem_of_here.
  - unfold changeReport. rewrite !length_app.
    destruct (added diff) as [|a la], (removed diff) as [|r lr],
      (changed diff) as [|c lc];
      cbn [length]; rewrite ?List.length_map, ?change_lines_length;
      cbn [length]; unfold compose; lia.
Qed.

End ReportFacts.

(** * The definitions at work on the sample captures *)

Example normalize_list_ids :
  obj_keys (nodes (normalizeSnapshot {| root := list_first_second |}
                     EmptyString))
  = ["path:0"; "path:0.0"; "path:0.1"].
Proof. reflexivity. Qed.

Example own_property_order :
  Object_fromEntries [("b", 1); ("10", 2); ("9", 3); ("a", 4)]
  = [("9", 3); ("10", 2); ("b", 1); ("a", 4)].
Proof. reflexivity. Qed.

Example sanitizeValue_sorts_keys :
  sanitizeValue (JObject [("min", JNumber 0%Z); ("max", JOpaque "f() {}");
                          ("low", JArray [JUndefined; JNull])])
  = JObject [("low", JArray [JString "undefined"; JNull]);
             ("max", JString "f() {}"); ("min", JNumber 0%Z)].
Proof. reflexivity. Qed.

Example stableStringify_slider :
  stableStringify (JObject value_min_max)
  = Some ("{" +:+ dquote +:+ "max" +:+ dquote +:+ ":10,"
          +:+ dquote +:+ "min" +:+ dquote +:+ ":0}")
  ∧ stableStringify (JObject value_max_min)
    = stableStringify (JObject value_min_max).
Proof. split; reflexivity. Qed.

Example blank_key_is_default :
  trimmed_or (Some "  ") "default" = "default"
  ∧ trimmed_or (Some " chat ") "default" = "chat".
Proof. split; reflexivity. Qed.

Example first_call_creates_baseline :
  (takeChangeSnapshot params_default (Some {| root := page_before |}) "t0"
     [] ∅).1
  = ["No baseline found for key " +:+ dquote +:+ "default" +:+ dquote
       +:+ ". Created a baseline with the current snapshot."].
Proof. reflexivity. Qed.

Example group_and_item_exchanged :
  id <$> added (diffSnapshots
                  (normalizeSnapshot {| root := list_group_second |} "t0")
                  (normalizeSnapshot {| root := list_second_group |} "t1"))
  = ["path:0.1.0"]
  ∧ id <$> removed (diffSnapshots
                      (normalizeSnapshot {| root := list_group_second |} "t0")
                      (normalizeSnapshot {| root := list_second_group |} "t1"))
    = ["path:0.0.0"].
Proof. split; reflexivity. Qed.

Example hinted_button_id :
  getStableNodeId hinted_button "0.3" = "backend:7|node:3|ax:ax-1".
Proof. reflexivity. Qed.

Example page_diff_report :
  (takeChangeSnapshot
     {| baselineKey := Some "chat"; replaceBaseline := Some false;
        compareTo := None |}
     (Some {| root := page_after |}) "t1" []
     {[ "chat" := normalizeSnapshot {| root := page_before |} "t0" ]}).1
  = ["Accessibility changes compared to baseline " +:+ dquote +:+ "chat"
       +:+ dquote +:+ ":";
     "Added nodes: 1, Removed nodes: 0, Changed nodes: 1";
     "## Added";
     "- [alert] " +:+ dquote +:+ "New message" +:+ dquote
       +:+ " at path 0.1";
     "## Changed";
     "- [button] " +:+ dquote +:+ "Toggle" +:+ dquote +:+ " at path 0.0";
     "  - pressed: " +:+ dquote +:+ "false" +:+ dquote +:+ " -> "
       +:+ dquote +:+ "true" +:+ dquote;
     "  - focused: undefined -> true"].
Proof. vm_compute. reflexivity. Qed.

(** * The claims on the sample captures *)

(** Settles a decidable statement about concrete data by evaluation. *)
Ltac by_decision :=
  lazymatch goal with
  | |- ?P => apply (bool_decide_unpack P); vm_compute; exact I
  end.

(** The collation of the reference host is a consistent comparator that
    tells all strings apart. *)
Lemma ref_collation_consistent : consistent_collation.
Proof.
  split.
  - intros a b. apply String.compare_antisym.
  - intros a b c Hab Hbc. cbn [localeCompare refEngine] in *.
    change String.compare with String_as_OT.cmp in *.
    destruct (String_as_OT.cmp a b) eqn:Eab; [|clear Hab|done].
    + apply String_as_OT.cmp_eq in Eab. by subst.
    + destruct (String_as_OT.cmp b c) eqn:Ebc; [|clear Hbc|done].
      * apply String_as_OT.cmp_eq in Ebc. subst. by rewrite Eab.
      * apply String_as_OT.cmp_lt in Eab, Ebc.
        pose proof (String_as_OT.lt_trans _ _ _ Eab Ebc) as Hac.
        apply String_as_OT.cmp_lt in Hac. by rewrite Hac.
Qed.

Lemma ref_collation_separates keys : collation_separates keys.
Proof. intros a b _ _. apply String.compare_eq_iff. Qed.

(** C1 fails as stated: the diff of the list against the list with its two
    items exchanged has no added and no removed node, only two changed
    ones; and exchanging two items that are alike gives a diff without any
    change. *)
Lemma swapped_siblings_counterexample :
  added (diffSnapshots
           (normalizeSnapshot {| root := list_first_second |} "t0")
           (normalizeSnapshot {| root := list_second_first |} "t1")) = []
  ∧ removed (diffSnapshots
               (normalizeSnapshot {| root := list_first_second |} "t0")
               (normalizeSnapshot {| root := list_second_first |} "t1")) = []
  ∧ change_id <$> changed (diffSnapshots
               (normalizeSnapshot {| root := list_first_second |} "t0")
               (normalizeSnapshot {| root := list_second_first |} "t1"))
    = ["path:0.0"; "path:0.1"]
  ∧ hasSnapshotChanges (diffSnapshots
               (normalizeSnapshot {| root := list_first_first |} "t0")
               (normalizeSnapshot {| root := list_first_first |} "t1"))
    = false.
Proof. repeat split; reflexivity. Qed.

(** C1 on a list whose first item is a group of one item: exchanged with
    the second item, a leaf, it makes nodes appear and disappear. *)
Lemma swapped_siblings_diff_witness :
  added (diffSnapshots
           (normalizeSnapshot {| root := list_group_second |} "t0")
           (normalizeSnapshot {| root := list_second_group |} "t1")) ≠ []
  ∧ removed (diffSnapshots
               (normalizeSnapshot {| root := list_group_second |} "t0")
               (normalizeSnapshot {| root := list_second_group |} "t1")) ≠ [].
Proof.
  destruct (swapped_siblings_diff group_of_first item_second
              list_group_second list_second_group "t0" "t1")
    as (Hadded & Hremoved & _); [apply (swapped_here _ _ _ [] [] [])|].
  assert (¬ same_path_identified group_of_first item_second) as Hshape.
  { intros Hshape.
    by destruct (proj1 (Hshape [0%nat])
                   (ex_intro _ item_first (conj eq_refl eq_refl)))
      as (raw & Hraw & _). }
  split; intros Hnil.
  - by apply Hshape, Hadded.
  - by apply Hshape, Hremoved.
Defined.

(** C2 fails as stated: the three identity hints of the button are in the
    [data] of its normalized node. *)
Lemma identity_hints_kept_counterexample :
  obj_lookup (data (normalizeNode hinted_button ["0"] None))
    "backendDOMNodeId" = Some (JNumber 7%Z)
  ∧ obj_lookup (data (normalizeNode hinted_button ["0"] None)) "nodeId"
    = Some (JNumber 3%Z)
  ∧ obj_lookup (data (normalizeNode hinted_button ["0"] None)) "axId"
    = Some (JString "ax-1").
Proof. repeat split; reflexivity. Qed.

Lemma normalized_data_lookup_witness :
  obj_lookup (data (normalizeNode hinted_button ["0"] None)) "nodeId"
  = Some (JNumber 3%Z)
  ∧ obj_lookup (data (normalizeNode hinted_button ["0"] None)) "id" = None.
Proof.
  split.
  - rewrite (normalized_data_lookup hinted_button ["0"] None "nodeId");
      [reflexivity|by_decision|by_decision].
  - rewrite (normalized_data_lookup hinted_button ["0"] None "id");
      [reflexivity|by_decision|by_decision].
Defined.

(** C3 fails as stated: after a call at a later moment the snapshot stored
    under the key is not the one stored before. *)
Lemma stored_snapshot_changes_counterexample :
  (takeChangeSnapshot params_default (Some {| root := list_first_second |})
     "2025-01-01T00:00:01.000Z" [] store_default).2 !! "default"
  ≠ store_default !! "default".
Proof.
  unfold takeChangeSnapshot, getAccessibilityBaseline,
    setAccessibilityBaseline, store_default.
  cbn [baselineKey compareTo replaceBaseline params_default trimmed_or
       default].
  rewrite lookup_singleton_eq. cbn [snd]. rewrite lookup_insert_eq.
  by intros [=].
Qed.

Lemma repeated_capture_witness :
  (takeChangeSnapshot params_default (Some {| root := list_first_second |})
     "2025-01-01T00:00:01.000Z" [] store_default).1
  = ["No accessibility changes compared to baseline " +:+ dquote
       +:+ "default" +:+ dquote +:+ "."].
Proof.
  pose proof (repeated_capture_reports_no_change params_default
                {| root := list_first_second |}
                "2025-01-01T00:00:01.000Z" "2025-01-01T00:00:02.000Z" []
                store_default
                (normalizeSnapshot {| root := list_first_second |}
                   "2025-01-01T00:00:00.000Z")) as H.
  cbv zeta in H.
  destruct H as (_ & -> & _);
    [reflexivity|discriminate| |reflexivity|reflexivity].
  apply lookup_singleton_eq.
Defined.

(** C4 fails as stated: the two raw nodes with the same backend DOM
    identifier become one normalized node. *)
Lemma merged_nodes_counterexample :
  node_count twice_backend_5 = 2
  ∧ length (nodes (normalizeSnapshot {| root := twice_backend_5 |} "t0")) = 1.
Proof. vm_compute. done. Qed.

Lemma one_node_per_raw_node_witness :
  length (nodes (normalizeSnapshot {| root := page_after |} "t0")) = 3.
Proof.
  destruct (one_normalized_node_per_raw_node {| root := page_after |} "t0")
    as (_ & Hcount & Hfree).
  apply Hcount, Hfree. reflexivity.
Defined.





(** C9 fails as stated: the compare key [other] has no baseline, the
    baseline key [chat] has one, and the call leaves the store with the one
    entry it had. *)
Lemma overwritten_baseline_counterexample :
  store_chat !! "other" = None
  ∧ size (takeChangeSnapshot params_chat_other
            (Some {| root := list_second_first |}) "t1" [] store_chat).2
    = size store_chat.
Proof.
  split; [done|].
  unfold takeChangeSnapshot, getAccessibilityBaseline,
    setAccessibilityBaseline, store_chat.
  cbn. rewrite insert_singleton_eq. by rewrite !map_size_singleton.
Qed.

Lemma missing_baseline_witness :
  (takeChangeSnapshot params_default (Some {| root := list_first_second |})
     "t0" [] ∅).2
  = {[ "default" := normalizeSnapshot {| root := list_first_second |} "t0" ]}.
Proof.
  pose proof (missing_baseline_is_created params_default
                {| root := list_first_second |} "t0" [] ∅) as H.
  cbv zeta in H. destruct H as [-> _]; [apply lookup_empty|].
  cbn [snd]. apply insert_empty.
Defined.

(** C10 on the page of the test. *)
Lemma well_formed_diff_witness :
  NoDup (reported_ids
           (diffSnapshots (normalizeSnapshot {| root := page_before |} "t0")
                          (normalizeSnapshot {| root := page_after |} "t1")))
  ∧ Forall (λ change, changes change ≠ [])
      (changed
         (diffSnapshots (normalizeSnapshot {| root := page_before |} "t0")
                        (normalizeSnapshot {| root := page_after |} "t1"))).
Proof.
  apply (diffSnapshots_well_formed
           (normalizeSnapshot {| root := page_before |} "t0")
           (normalizeSnapshot {| root := page_after |} "t1"));
    apply normalizeSnapshot_wf.
Defined.

(** * The further properties on the sample captures *)

(** X1 on the page of the test, before and after. *)
Lemma diff_has_no_changes_witness :
  hasSnapshotChanges
    (diffSnapshots (normalizeSnapshot {| root := page_before |} "t0")
                   (normalizeSnapshot {| root := page_after |} "t1")) = false
  ↔ (∀ key,
       key ∈ obj_keys (nodes (normalizeSnapshot {| root := page_before |} "t0"))
       ↔ key ∈ obj_keys
                 (nodes (normalizeSnapshot {| root := page_after |} "t1")))
    ∧ (∀ key previousNode currentNode,
         obj_lookup (nodes (normalizeSnapshot {| root := page_before |} "t0"))
           key = Some previousNode →
         obj_lookup (nodes (normalizeSnapshot {| root := page_after |} "t1"))
           key = Some currentNode →
         ∀ property,
           areEqual (obj_get (data previousNode) property)
                    (obj_get (data currentNode) property) = true).
Proof.
  apply (diff_has_no_changes_iff
           (normalizeSnapshot {| root := page_before |} "t0")
           (normalizeSnapshot {| root := page_after |} "t1")).
  - exact (proj1 (normalizeSnapshot_wf {| root := page_after |} "t1")).
  - apply normalizeSnapshot_own_ids.
  - apply normalizeSnapshot_own_ids.
Defined.

(** X2 on the page of the test: what is added one way round is removed the
    other way round. *)
Lemma added_and_removed_witness :
  added (diffSnapshots (normalizeSnapshot {| root := page_before |} "t0")
                       (normalizeSnapshot {| root := page_after |} "t1"))
  = removed (diffSnapshots (normalizeSnapshot {| root := page_after |} "t1")
                           (normalizeSnapshot {| root := page_before |} "t0")).
Proof.
  refine (proj2 (proj2
            (added_and_removed_nodes
               (normalizeSnapshot {| root := page_before |} "t0")
               (normalizeSnapshot {| root := page_after |} "t1") _ _)));
    apply normalizeSnapshot_own_ids.
Defined.

(** X6 on the page of the test. *)
Lemma diff_with_empty_side_witness :
  diffSnapshots {| capturedAt := "t0"; nodes := [] |}
    (normalizeSnapshot {| root := page_after |} "t1")
  = {| added := (nodes (normalizeSnapshot {| root := page_after |} "t1")).*2;
       removed := []; changed := [] |}.
Proof.
  refine (proj1 (diff_with_empty_side
                   (normalizeSnapshot {| root := page_after |} "t1") "t0" _)).
  apply normalizeSnapshot_own_ids.
Defined.

(** X7 on the page of the test. *)
Lemma changes_either_way_witness :
  hasSnapshotChanges
    (diffSnapshots (normalizeSnapshot {| root := page_before |} "t0")
                   (normalizeSnapshot {| root := page_after |} "t1"))
  = hasSnapshotChanges
      (diffSnapshots (normalizeSnapshot {| root := page_after |} "t1")
                     (normalizeSnapshot {| root := page_before |} "t0")).
Proof.
  apply (changes_either_way
           (normalizeSnapshot {| root := page_before |} "t0")
           (normalizeSnapshot {| root := page_after |} "t1")).
  - exact (proj1 (normalizeSnapshot_wf {| root := page_before |} "t0")).
  - exact (proj1 (normalizeSnapshot_wf {| root := page_after |} "t1")).
Defined.

(** X8 on the value of the slider. *)
Lemma sanitizeValue_object_witness :
  ∃ sanitized,
    sanitizeValue (JObject value_min_max) = JObject sanitized
    ∧ NoDup (obj_keys sanitized)
    ∧ ∀ key, obj_lookup sanitized key
             = sanitizeValue <$> obj_lookup value_min_max key.
Proof.
  apply (sanitizeValue_object_properties value_min_max). by_decision.
Defined.

(** X10 on the two values of the slider. *)
Lemma areEqual_key_order_witness :
  areEqual (JObject value_min_max) (JObject value_max_min) = true.
Proof.
  apply (areEqual_ignores_key_order value_min_max value_max_min).
  - apply ref_collation_consistent.
  - apply ref_collation_separates.
  - by_decision.
  - apply Permutation_swap.
Defined.

(** X11 on the host with a value that is not a number. *)
Lemma areEqual_non_finite_witness :
  @areEqual nan_host (@JNumber nan_host None) (@JNull nan_host) = true.
Proof.
  apply (@areEqual_non_finite_is_null nan_host None). reflexivity.
Defined.

(** X18: the page before, then the page after, on the default key. *)
Lemma successive_calls_witness :
  (takeChangeSnapshot params_default (Some {| root := page_after |}) "t2"
     (takeChangeSnapshot params_default (Some {| root := page_before |})
        "t1" [] store_default).1
     (takeChangeSnapshot params_default (Some {| root := page_before |})
        "t1" [] store_default).2).2
  = <["default" := normalizeSnapshot {| root := page_after |} "t2"]>
      store_default.
Proof.
  refine (proj2 (proj2
            (successive_calls_diff_against_previous_capture params_default
               {| root := page_before |} {| root := page_after |}
               "t1" "t2" [] store_default eq_refl _))).
  discriminate.
Defined.

(** X19: the baseline under [chat] stays when replacement is opted out. *)
Lemma pinned_baseline_witness :
  (takeChangeSnapshot params_keep (Some {| root := list_second_first |})
     "t1" [] store_chat).2
  = store_chat.
Proof.
  refine (f_equal snd
            (proj1 (pinned_baseline_is_kept params_keep
                      {| root := list_second_first |}
                      {| root := list_first_second |} "t1" "t2" []
                      store_chat
                      (normalizeSnapshot {| root := list_first_second |}
                         "2025-01-01T00:00:00.000Z")
                      eq_refl _))).
  apply lookup_singleton_eq.
Defined.
